(** * astrid: subsystem registry, event bus, input mapping, macros and
      chassis motion control.

    A shallow embedding of the C++ sources.  Conventions:

    - [double] is read as a real number (type [R]); rounding is not
      modelled, [M_PI] is the real [PI].
    - A class becomes a record of its fields (same names, trailing
      underscore included) inside a module named after the class; a method
      becomes a function that takes the object and returns the new one.
    - [std::unordered_map] is a [gmap]; [std::vector] is a [list].
    - Objects of the PROS library (motors, sensors, controller) are records
      holding what the program can observe of them. *)

From Stdlib Require Import Reals Lra Lia ZArith.
From stdpp Require Import gmap strings list fin_maps pretty.

Abbreviation double := R (only parsing).

#[global] Instance Rlt_decision (a b : R) : Decision (a < b)%R := Rlt_dec a b.
#[global] Instance Rgt_decision (a b : R) : Decision (a > b)%R := Rgt_dec a b.
#[global] Instance Req_decision : EqDecision R := Req_dec_T.

(** ** Loops *)

(** [while (cond s) s = body s;] with a bound on the number of iterations:
    [None] means that the bound was reached with the condition still true. *)
Fixpoint while_loop {S : Type} (cond : S → bool) (body : S → S)
    (fuel : nat) (s : S) : option S :=
  if cond s then
    match fuel with
    | O => None
    | S fuel' => while_loop cond body fuel' (body s)
    end
  else Some s.

(** ** <cmath> *)

Module cmath.
Local Open Scope R_scope.

Definition M_PI : double := PI.

(** [std::atan2 (y, x)]: the angle of the point (x, y), in [-PI, PI]. *)
Definition atan2 (y x : double) : double :=
  if decide (x > 0) then atan (y / x)
  else if decide (x < 0) then
    if decide (y < 0) then atan (y / x) - PI else atan (y / x) + PI
  else if decide (y > 0) then PI / 2
  else if decide (y < 0) then - (PI / 2)
  else 0.

(** [std::pow (b, e)] for a base [b >= 0] and an exponent [e >= 0].  The
    value at a zero base with a negative exponent, where [std::pow] gives
    infinity, stands for nothing: the statements that depend on the values
    of [pow] assume a positive exponent. *)
Definition pow (b e : double) : double :=
  if decide (b = 0) then (if decide (e = 0) then 1 else 0) else Rpower b e.

End cmath.
Export cmath.

(** ** constants/fieldConstants.hpp *)

Module field.

Record Point := mkPoint { x : double; y : double }.

Record FieldElement := mkFieldElement { position : Point; height : double }.

Definition FieldElement_new (x y h : double) : FieldElement :=
  mkFieldElement (mkPoint x y) h.

Module ladder.
Definition HIGH_STAKE : FieldElement := FieldElement_new 72 72 46.16.
End ladder.

Module mobile_goals.
Definition GOAL_HEIGHT : double := 14.5%R.
Definition BOTTOM_LEFT : FieldElement := FieldElement_new 36 36 GOAL_HEIGHT.
Definition CENTER : FieldElement := FieldElement_new 72 72 GOAL_HEIGHT.
End mobile_goals.

End field.

(** ** The PROS objects the program drives *)

Module pros.
Local Open Scope R_scope.

(** A motor handle: its port, its polarity and the last velocity it was
    commanded, as the caller passed it. *)
Record Motor := mkMotor {
  motor_port : Z;
  motor_reversed : bool;
  motor_velocity : double
}.

Definition Motor_new (port : Z) : Motor := mkMotor port false 0.

Definition set_reversed (r : bool) (m : Motor) : Motor :=
  mkMotor (motor_port m) r (motor_velocity m).

Definition move_velocity (velocity : double) (m : Motor) : Motor :=
  mkMotor (motor_port m) (motor_reversed m) velocity.

(** The orientation sensor: [get_heading] is in degrees. *)
Record IMU := mkIMU { imu_port : Z; get_heading : double }.

(** A rotation sensor on a tracking wheel. *)
Record Rotation := mkRotation { rotation_port : Z; get_position : Z }.

Definition reset_position (r : Rotation) : Rotation :=
  mkRotation (rotation_port r) 0.

(** What happens while the program sleeps in [pros::delay]: the sensors
    take new readings, and the competition task may disable the
    subsystems. *)
Record Tick := mkTick {
  tick_heading : double;
  tick_left : Z;
  tick_right : Z;
  tick_disable : bool
}.

Inductive controller_analog_e_t :=
  | ANALOG_LEFT_X | ANALOG_LEFT_Y | ANALOG_RIGHT_X | ANALOG_RIGHT_Y.

Inductive controller_digital_e_t :=
  | DIGITAL_L1 | DIGITAL_L2 | DIGITAL_R1 | DIGITAL_R2
  | DIGITAL_UP | DIGITAL_DOWN | DIGITAL_LEFT | DIGITAL_RIGHT
  | DIGITAL_X | DIGITAL_B | DIGITAL_Y | DIGITAL_A.

#[global] Instance controller_digital_eq_dec : EqDecision controller_digital_e_t.
Proof. solve_decision. Defined.

(** The value of the enumerator, as [static_cast<int>] gives it. *)
Definition digital_code (b : controller_digital_e_t) : Z :=
  match b with
  | DIGITAL_L1 => 6 | DIGITAL_L2 => 7 | DIGITAL_R1 => 8 | DIGITAL_R2 => 9
  | DIGITAL_UP => 10 | DIGITAL_DOWN => 11 | DIGITAL_LEFT => 12
  | DIGITAL_RIGHT => 13 | DIGITAL_X => 14 | DIGITAL_B => 15
  | DIGITAL_Y => 16 | DIGITAL_A => 17
  end%Z.

(** The controller: the stick positions (-127..127), the buttons held, and
    the buttons pressed since they were last polled for a new press. *)
Record Controller := mkController {
  get_analog : controller_analog_e_t → Z;
  get_digital : controller_digital_e_t → bool;
  pending_press : controller_digital_e_t → bool
}.

(** Polling a button for a new press consumes the press. *)
Definition get_digital_new_press (b : controller_digital_e_t)
    (c : Controller) : bool * Controller :=
  (pending_press c b,
   mkController (get_analog c) (get_digital c)
     (λ b', if decide (b' = b) then false else pending_press c b')).

End pros.
Export pros.

(** ** movement/chassis.hpp *)

Inductive DriveType := TANK | HOLONOMIC | MECANUM.

Inductive OdomType := NONE | TRACKING | INTEGRATED | IMU_ENHANCED.

Record ChassisConfig := mkConfig { driveType : DriveType; odomType : OdomType }.

Module Position.
Local Open Scope R_scope.

Record t := mk { x : double; y : double; heading : double }.

Definition distanceTo (p : t) (target : field.Point) : double :=
  let dx := field.x target - x p in
  let dy := field.y target - y p in
  sqrt (dx * dx + dy * dy).

Definition angleTo (p : t) (target : field.Point) : double :=
  atan2 (field.y target - y p) (field.x target - x p).

#[global] Arguments distanceTo : simpl never.
#[global] Arguments angleTo : simpl never.

End Position.

Module Chassis.
Local Open Scope R_scope.

Record t := mk {
  name_ : string;
  current_pos_ : Position.t;
  motors_ : list Motor;
  imu_ : option IMU;
  enabled_ : bool
}.

Definition new (name : string) : t := mk name (Position.mk 0 0 0) [] None false.

Definition set_current_pos (p : Position.t) (c : t) : t :=
  mk (name_ c) p (motors_ c) (imu_ c) (enabled_ c).

Definition set_motors (ms : list Motor) (c : t) : t :=
  mk (name_ c) (current_pos_ c) ms (imu_ c) (enabled_ c).

Definition set_imu (i : option IMU) (c : t) : t :=
  mk (name_ c) (current_pos_ c) (motors_ c) i (enabled_ c).

Definition set_enabled (e : bool) (c : t) : t :=
  mk (name_ c) (current_pos_ c) (motors_ c) (imu_ c) e.

Definition initialize (c : t) : t := set_enabled true c.

Definition update (c : t) : t := c.

Definition stop (c : t) : t :=
  set_motors (move_velocity 0 <$> motors_ c) c.

Definition disable (c : t) : t := stop (set_enabled false c).

Definition isEnabled (c : t) : bool := enabled_ c.

Definition getName (c : t) : string := name_ c.

(** The sensor reads 0 once its reset has settled. *)
Definition initializeSensors (Config : ChassisConfig) (imu_port : Z) (c : t) : t :=
  match odomType Config with
  | IMU_ENHANCED | TRACKING => set_imu (Some (mkIMU imu_port 0)) c
  | _ => c
  end.

Definition addMotor (port : Z) (reversed : bool) (c : t) : t :=
  if decide (length (motors_ c) < 10)%nat then
    let motor := Motor_new port in
    let motor := if reversed then set_reversed true motor else motor in
    set_motors (motors_ c ++ [motor]) c
  else c.

Definition setMotorVelocity (index : Z) (velocity : double) (c : t) : t :=
  if decide (0 ≤ index ∧ index < Z.of_nat (length (motors_ c)))%Z then
    set_motors (alter (move_velocity velocity) (Z.to_nat index) (motors_ c)) c
  else c.

Definition getPosition (c : t) : Position.t := current_pos_ c.

Definition getMotorCount (c : t) : nat := length (motors_ c).

End Chassis.

(** ** movement/tank_chassis.hpp *)

Module TankChassis.
Local Open Scope R_scope.

Record t := mk {
  base : Chassis.t;
  left_encoder_ : option Rotation;
  right_encoder_ : option Rotation
}.

Definition kP : double := 0.8.
Definition kI : double := 0.001.
Definition kD : double := 0.2.
Definition kTurnP : double := 1.2.

Definition new (name : string) : t := mk (Chassis.new name) None None.

Definition with_base (f : Chassis.t → Chassis.t) (c : t) : t :=
  mk (f (base c)) (left_encoder_ c) (right_encoder_ c).

Definition enabled_ (c : t) : bool := Chassis.enabled_ (base c).
Definition motors_ (c : t) : list Motor := Chassis.motors_ (base c).
Definition current_pos_ (c : t) : Position.t := Chassis.current_pos_ (base c).
Definition imu_ (c : t) : option IMU := Chassis.imu_ (base c).

Definition stop (c : t) : t := with_base Chassis.stop c.
Definition initialize (c : t) : t := with_base Chassis.initialize c.
Definition disable (c : t) : t := with_base Chassis.disable c.
Definition addMotor (port : Z) (reversed : bool) (c : t) : t :=
  with_base (Chassis.addMotor port reversed) c.
Definition setMotorVelocity (index : Z) (velocity : double) (c : t) : t :=
  with_base (Chassis.setMotorVelocity index velocity) c.

(** [pros::delay]: the world moves on by one tick. *)
Definition delay (k : Tick) (c : t) : t :=
  let c :=
    mk (Chassis.set_imu
          ((λ i, mkIMU (imu_port i) (tick_heading k)) <$> imu_ c) (base c))
       ((λ r, mkRotation (rotation_port r) (tick_left k)) <$> left_encoder_ c)
       ((λ r, mkRotation (rotation_port r) (tick_right k)) <$> right_encoder_ c) in
  if tick_disable k then disable c else c.

(** The two loops that bring an angle error back around zero. *)
Definition normalize (fuel : nat) (angle_error : double) : option double :=
  angle_error ← while_loop (λ e, bool_decide (e > M_PI)) (λ e, e - 2 * M_PI)
                  fuel angle_error;
  while_loop (λ e, bool_decide (e < - M_PI)) (λ e, e + 2 * M_PI)
    fuel angle_error.

#[global] Arguments normalize : simpl never.

(** [for (i = 0; i < motors_.size(); i++) motors_[i].move_velocity(...)],
    the power depending on the half the motor is in. *)
Definition drive_motors (power : bool → double) (motors : list Motor) : list Motor :=
  imap (λ i, move_velocity
               (power (bool_decide (i < length motors / 2)%nat) * 200)) motors.

Section WithConfig.
Variable Config : ChassisConfig.

Definition initializeSensors (imu_port left_enc_port right_enc_port : Z) (c : t) : t :=
  let c := with_base (Chassis.initializeSensors Config imu_port) c in
  match odomType Config with
  | TRACKING =>
      let c :=
        if decide (left_enc_port ≠ (-1)%Z)
        then mk (base c) (Some (reset_position (mkRotation left_enc_port 0)))
               (right_encoder_ c)
        else c in
      if decide (right_enc_port ≠ (-1)%Z)
      then mk (base c) (left_encoder_ c)
             (Some (reset_position (mkRotation right_enc_port 0)))
      else c
  | _ => c
  end.

(** [getPosition] is [const], but [current_pos_] is [mutable]: the call
    returns the position and the chassis it leaves behind. *)
Definition getPosition (c : t) : Position.t * t :=
  let stored := current_pos_ c in
  match odomType Config with
  | IMU_ENHANCED =>
      match imu_ c with
      | Some imu =>
          let heading := get_heading imu * M_PI / 180 in
          (Position.mk (Position.x stored) (Position.y stored) heading, c)
      | None => (stored, c)
      end
  | TRACKING =>
      match imu_ c, left_encoder_ c, right_encoder_ c with
      | Some imu, Some left_encoder, Some right_encoder =>
          let left_dist := IZR (get_position left_encoder) / 360 * (2.75 * M_PI) in
          let right_dist := IZR (get_position right_encoder) / 360 * (2.75 * M_PI) in
          let heading := get_heading imu * M_PI / 180 in
          let distance := (left_dist + right_dist) / 2 in
          let new_x := Position.x stored + distance * cos heading in
          let new_y := Position.y stored + distance * sin heading in
          let pos := Position.mk new_x new_y heading in
          (pos, with_base (Chassis.set_current_pos pos) c)
      | _, _, _ => (stored, c)
      end
  | _ => (stored, c)
  end.

(** The body of the loop of [moveTo], from its test to its [pros::delay];
    [ticks] is what the coming delays will bring, and running out of them
    (or of [fuel] in the normalization) is [None]: the call has not
    returned yet. *)
Fixpoint moveTo_loop (fuel : nat) (ticks : list Tick) (target : field.Point)
    (reverse : bool) (c : t) : option t :=
  if negb (enabled_ c) then Some c
  else
    let '(current, c) := getPosition c in
    let distance := Position.distanceTo current target in
    if decide (distance < 1) then Some c
    else
      let angle_error := Position.angleTo current target - Position.heading current in
      let angle_error := if reverse then angle_error + M_PI else angle_error in
      match normalize fuel angle_error with
      | None => None
      | Some angle_error =>
          let turn_power := kTurnP * angle_error in
          let drive_power := kP * distance in
          let c :=
            with_base (λ b, Chassis.set_motors
              (drive_motors (λ is_left : bool,
                 drive_power + (if is_left then turn_power else - turn_power))
                 (Chassis.motors_ b)) b) c in
          match ticks with
          | [] => None
          | k :: ticks' => moveTo_loop fuel ticks' target reverse (delay k c)
          end
      end.

Definition moveTo (fuel : nat) (ticks : list Tick) (target : field.Point)
    (reverse : bool) (c : t) : option t :=
  if negb (enabled_ c) then Some c
  else c ← moveTo_loop fuel ticks target reverse c; Some (stop c).

Fixpoint turnTo_loop (fuel : nat) (ticks : list Tick) (angle : double)
    (c : t) : option t :=
  if negb (enabled_ c) then Some c
  else
    let '(pos, c) := getPosition c in
    let current := Position.heading pos in
    let error := angle - current in
    match normalize fuel error with
    | None => None
    | Some error =>
        if decide (Rabs error < 0.05) then Some c
        else
          let power := kTurnP * error in
          let c :=
            with_base (λ b, Chassis.set_motors
              (drive_motors (λ is_left : bool, if is_left then power else - power)
                 (Chassis.motors_ b)) b) c in
          match ticks with
          | [] => None
          | k :: ticks' => turnTo_loop fuel ticks' angle (delay k c)
          end
    end.

Definition turnTo (fuel : nat) (ticks : list Tick) (angle : double) (c : t) : option t :=
  if negb (enabled_ c) then Some c
  else c ← turnTo_loop fuel ticks angle c; Some (stop c).

End WithConfig.

End TankChassis.

(** ** movement/driver_control.hpp *)

Module DriveMode.
Inductive t := ARCADE | SPLIT | TANK.
End DriveMode.

Module DriverControl.
Local Open Scope R_scope.

Record DriverConfig := mkDriverConfig {
  mode : DriveMode.t;
  curve_factor : double;
  deadzone : double;
  turn_scale : double;
  controller_id : Z
}.

Definition DriverConfig_default : DriverConfig :=
  mkDriverConfig DriveMode.ARCADE 1.5 0.05 0.8 0.

(** [chassis_] is a reference: the chassis is passed to the methods that
    drive it and returned by them. *)
Record t := mk {
  name_ : string;
  config_ : DriverConfig;
  controller_ : Controller;
  enabled_ : bool
}.

Definition applyDeadzone (dc : t) (input : double) : double :=
  if decide (Rabs input < deadzone (config_ dc)) then 0 else input.

Definition applyCurve (dc : t) (input : double) : double :=
  pow (Rabs input) (curve_factor (config_ dc)) * (if decide (input < 0) then -1 else 1).

(** [for (i = 0; i < chassis_.getMotorCount(); i++)
       chassis_.setMotorVelocity(i, (is_left ? left : right) * 200.0)] *)
Definition apply_to_motors (left right : double) (chassis : Chassis.t) : Chassis.t :=
  foldl (λ chassis i,
           let is_left := bool_decide (i < Chassis.getMotorCount chassis / 2)%nat in
           Chassis.setMotorVelocity (Z.of_nat i)
             ((if is_left then left else right) * 200) chassis)
        chassis (seq 0 (Chassis.getMotorCount chassis)).

Definition processTankDrive (dc : t) (chassis : Chassis.t) : Chassis.t :=
  if negb (enabled_ dc) then chassis
  else
    let left := applyDeadzone dc (IZR (get_analog (controller_ dc) ANALOG_LEFT_Y) / 127) in
    let right := applyDeadzone dc (IZR (get_analog (controller_ dc) ANALOG_RIGHT_Y) / 127) in
    let left := applyCurve dc left in
    let right := applyCurve dc right in
    apply_to_motors left right chassis.

(** The mixing of [processArcadeDrive], from [drive] and [turn] as they are
    after the curve and the turn scale. *)
Definition arcade_mix (drive turn : double) : double * double :=
  let left := drive + turn in
  let right := drive - turn in
  let max := Rmax (Rabs left) (Rabs right) in
  if decide (max > 1) then (left / max, right / max) else (left, right).

Definition processArcadeDrive (split : bool) (dc : t) (chassis : Chassis.t) : Chassis.t :=
  if negb (enabled_ dc) then chassis
  else
    let drive := applyDeadzone dc (IZR (get_analog (controller_ dc) ANALOG_LEFT_Y) / 127) in
    let turn :=
      if split
      then applyDeadzone dc (IZR (get_analog (controller_ dc) ANALOG_RIGHT_X) / 127)
      else applyDeadzone dc (IZR (get_analog (controller_ dc) ANALOG_LEFT_X) / 127) in
    let drive := applyCurve dc drive in
    let turn := applyCurve dc turn * turn_scale (config_ dc) in
    let mixed := arcade_mix drive turn in
    let left := mixed.1 in
    let right := mixed.2 in
    apply_to_motors left right chassis.

Definition initialize (dc : t) : t :=
  mk (name_ dc) (config_ dc) (controller_ dc) true.

Definition update (dc : t) (chassis : Chassis.t) : Chassis.t :=
  if negb (enabled_ dc) then chassis
  else
    match mode (config_ dc) with
    | DriveMode.TANK => processTankDrive dc chassis
    | DriveMode.ARCADE => processArcadeDrive false dc chassis
    | DriveMode.SPLIT => processArcadeDrive true dc chassis
    end.

Definition disable (dc : t) (chassis : Chassis.t) : t * Chassis.t :=
  (mk (name_ dc) (config_ dc) (controller_ dc) false, Chassis.stop chassis).

End DriverControl.

(** ** The macro and input-mapping header *)

(** The interface [Macro]: [execute] may act on the rest of the robot,
    which is the [World]. *)
Class Macro (World M : Type) := {
  execute : M → World → M * World;
  isComplete : M → bool;
  reset : M → M
}.

Inductive InputType := BUTTON | BUTTON_COMBO | ANALOG_ABOVE | ANALOG_BELOW | SEQUENCE.

(** Times are in milliseconds. *)
Record InputBinding := mkInputBinding {
  type : InputType;
  buttons : list controller_digital_e_t;
  analog : controller_analog_e_t;
  threshold : double;
  sequence_window : Z
}.

Module InputMapper.
Local Open Scope R_scope.

Section WithWorld.
Context {World : Type}.

(** [controller_] is a reference: the controller is threaded next to the
    mapper. *)
Record t := mk {
  name_ : string;
  bindings_ : gmap string InputBinding;
  actions_ : gmap string (World → World);
  input_history_ : list (Z * string);
  enabled_ : bool
}.

Definition new (name : string) : t := mk name ∅ ∅ [] false.

Definition set_history (h : list (Z * string)) (m : t) : t :=
  mk (name_ m) (bindings_ m) (actions_ m) h (enabled_ m).

(** The loop that records a new input: the first button of the binding
    that reports a new press is recorded, the ones polled before it have
    been polled. *)
Fixpoint record_new_input (now : Z) (btns : list controller_digital_e_t)
    (history : list (Z * string)) (controller : Controller)
    : list (Z * string) * Controller :=
  match btns with
  | [] => (history, controller)
  | btn :: btns' =>
      let '(pressed, controller) := get_digital_new_press btn controller in
      if pressed then (history ++ [(now, pretty (digital_code btn))], controller)
      else record_new_input now btns' history controller
  end.

(** [now] is what [steady_clock::now()] returns, were it called. *)
Definition checkBinding (now : Z) (binding : InputBinding)
    (m : t) (controller : Controller) : bool * (t * Controller) :=
  match type binding with
  | BUTTON =>
      match buttons binding with
      | [] => (false, (m, controller))
      | btn :: _ =>
          let '(pressed, controller) := get_digital_new_press btn controller in
          (pressed, (m, controller))
      end
  | BUTTON_COMBO =>
      (forallb (get_digital controller) (buttons binding), (m, controller))
  | ANALOG_ABOVE =>
      (bool_decide (IZR (get_analog controller (analog binding)) / 127 > threshold binding),
       (m, controller))
  | ANALOG_BELOW =>
      (bool_decide (IZR (get_analog controller (analog binding)) / 127 < threshold binding),
       (m, controller))
  | SEQUENCE =>
      let history :=
        filter (λ entry, ¬ (now - entry.1 > sequence_window binding)%Z)
               (input_history_ m) in
      let matches :=
        forallb (λ btn, bool_decide (get_digital controller btn = get_digital controller btn))
                (buttons binding) in
      if bool_decide (length history = length (buttons binding)) && matches
      then (true, (set_history [] m, controller))
      else
        let '(history, controller) :=
          record_new_input now (buttons binding) history controller in
        (false, (set_history history m, controller))
  end.

Definition initialize (m : t) : t :=
  mk (name_ m) (bindings_ m) (actions_ m) (input_history_ m) true.

Definition disable (m : t) : t :=
  mk (name_ m) (bindings_ m) (actions_ m) (input_history_ m) false.

(** The bindings are visited in the order of the map, which the source
    does not fix; [clock name] is the time read while the binding [name]
    is checked. *)
Definition update (clock : string → Z) (m : t) (controller : Controller)
    (w : World) : t * Controller * World :=
  if negb (enabled_ m) then (m, controller, w)
  else
    foldl (λ '(m, controller, w) '(name, binding),
             let '(fired, (m, controller)) :=
               checkBinding (clock name) binding m controller in
             if fired then
               match actions_ m !! name with
               | Some action => (m, controller, action w)
               | None => (m, controller, w)
               end
             else (m, controller, w))
          (m, controller, w) (map_to_list (bindings_ m)).

Definition addBinding (name : string) (binding : InputBinding)
    (action : World → World) (m : t) : t :=
  mk (name_ m) (<[name := binding]> (bindings_ m))
     (<[name := action]> (actions_ m)) (input_history_ m) (enabled_ m).

Definition removeBinding (name : string) (m : t) : t :=
  mk (name_ m) (delete name (bindings_ m)) (delete name (actions_ m))
     (input_history_ m) (enabled_ m).

End WithWorld.
Arguments t : clear implicits.

End InputMapper.

Module MacroSystem.

Section WithMacro.
Context {World M : Type} `{!Macro World M}.

(** [chassis_] is a reference into the [World]. *)
Record t := mk {
  name_ : string;
  macros_ : gmap string M;
  active_macro_ : string;
  enabled_ : bool
}.

Definition new (name : string) : t := mk name ∅ "" false.

Definition initialize (ms : t) : t :=
  mk (name_ ms) (macros_ ms) (active_macro_ ms) true.

Definition stopMacro (ms : t) : t :=
  mk (name_ ms) (macros_ ms) "" (enabled_ ms).

Definition update (ms : t) (w : World) : t * World :=
  if negb (enabled_ ms) || bool_decide (active_macro_ ms = "") then (ms, w)
  else
    match macros_ ms !! active_macro_ ms with
    | Some macro =>
        let '(macro, w) := execute macro w in
        let ms := mk (name_ ms) (<[active_macro_ ms := macro]> (macros_ ms))
                     (active_macro_ ms) (enabled_ ms) in
        if isComplete macro then (stopMacro ms, w) else (ms, w)
    | None => (ms, w)
    end.

Definition disable (ms : t) : t :=
  stopMacro (mk (name_ ms) (macros_ ms) (active_macro_ ms) false).

Definition isEnabled (ms : t) : bool := enabled_ ms.

Definition registerMacro (name : string) (macro : M) (ms : t) : t :=
  mk (name_ ms) (<[name := macro]> (macros_ ms)) (active_macro_ ms) (enabled_ ms).

Definition startMacro (name : string) (ms : t) : bool * t :=
  if negb (enabled_ ms) then (false, ms)
  else
    match macros_ ms !! name with
    | Some macro =>
        if bool_decide (active_macro_ ms = "") then
          (true, mk (name_ ms) (<[name := reset macro]> (macros_ ms)) name (enabled_ ms))
        else (false, ms)
    | None => (false, ms)
    end.

Definition isMacroActive (ms : t) : bool :=
  negb (bool_decide (active_macro_ ms = "")).

End WithMacro.
Arguments t : clear implicits.

End MacroSystem.

Module MovementMacro.

Section WithWorld.
Context {World : Type}.

Record t := mk { movement_func_ : World → World; complete_ : bool }.

Definition new (func : World → World) : t := mk func false.

Definition execute (m : t) (w : World) : t * World :=
  if negb (complete_ m) then (mk (movement_func_ m) true, movement_func_ m w)
  else (m, w).

Definition isComplete (m : t) : bool := complete_ m.

Definition reset (m : t) : t := mk (movement_func_ m) false.

End WithWorld.
Arguments t : clear implicits.

#[global] Instance MovementMacro_Macro {World : Type} : Macro World (t World) :=
  Build_Macro World (t World) execute isComplete reset.

End MovementMacro.

Module EnhancedDriverControl.

(** The sub-updates that an update of the arbitrator invokes. *)
Inductive Call := MacroSystem_update | InputMapper_update.

Section WithMacro.
Context {World M : Type} `{!Macro World M}.

Record t := mk {
  name_ : string;
  config_ : DriverControl.DriverConfig;
  enabled_ : bool
}.

(** [macro_system_] and [input_mapper_] are references; they are threaded
    with the controller the mapper polls and the world the macros act on.
    The actions bound in the mapper may act on the macro system as well
    (to start a macro) and on the world. *)
Record Refs := mkRefs {
  macro_system_ : MacroSystem.t M;
  input_mapper_ : InputMapper.t (MacroSystem.t M * World);
  controller : Controller;
  world : World
}.

Definition initialize (e : t) : t := mk (name_ e) (config_ e) true.

(** The result carries the sub-updates invoked, in order. *)
Definition update (clock : string → Z) (e : t) (r : Refs) : Refs * list Call :=
  if negb (enabled_ e) then (r, [])
  else if MacroSystem.isMacroActive (macro_system_ r) then
    let '(ms, w) := MacroSystem.update (macro_system_ r) (world r) in
    (mkRefs ms (input_mapper_ r) (controller r) w, [MacroSystem_update])
  else
    let '(im, c, (ms, w)) :=
      InputMapper.update clock (input_mapper_ r) (controller r)
        (macro_system_ r, world r) in
    (mkRefs ms im c w, [InputMapper_update]).

Definition disable (e : t) (r : Refs) : t * Refs :=
  (mk (name_ e) (config_ e) false,
   mkRefs (MacroSystem.disable (macro_system_ r)) (input_mapper_ r)
     (controller r) (world r)).

End WithMacro.
Arguments Refs : clear implicits.

End EnhancedDriverControl.

(** ** core/subsystem.hpp *)

#[global] Instance DriveType_eq_dec : EqDecision DriveType.
Proof. solve_decision. Defined.
#[global] Instance OdomType_eq_dec : EqDecision OdomType.
Proof. solve_decision. Defined.
#[global] Instance ChassisConfig_eq_dec : EqDecision ChassisConfig.
Proof. solve_decision. Defined.

(** The classes of the program, as [typeid] tells them apart: a template
    instantiated at two configurations is two types. *)
Inductive TypeId :=
  | T_ISubsystem
  | T_Subsystem_ClampConfig
  | T_Clamp
  | T_Chassis (Config : ChassisConfig)
  | T_TankChassis (Config : ChassisConfig)
  | T_DriverControl (Config : ChassisConfig)
  | T_InputMapper (Config : ChassisConfig)
  | T_MacroSystem (Config : ChassisConfig)
  | T_EnhancedDriverControl (Config : ChassisConfig).

#[global] Instance TypeId_eq_dec : EqDecision TypeId.
Proof. solve_decision. Defined.

Definition DriveType_code (d : DriveType) : nat :=
  match d with TANK => 0 | HOLONOMIC => 1 | MECANUM => 2 end.

Definition DriveType_of_code (n : nat) : DriveType :=
  match n with 0 => TANK | 1 => HOLONOMIC | _ => MECANUM end.

Definition OdomType_code (o : OdomType) : nat :=
  match o with NONE => 0 | TRACKING => 1 | INTEGRATED => 2 | IMU_ENHANCED => 3 end.

Definition OdomType_of_code (n : nat) : OdomType :=
  match n with 0 => NONE | 1 => TRACKING | 2 => INTEGRATED | _ => IMU_ENHANCED end.

Definition TypeId_code (T : TypeId) : nat * (nat * nat) :=
  let cfg c := (DriveType_code (driveType c), OdomType_code (odomType c)) in
  match T with
  | T_ISubsystem => (0, (0, 0))
  | T_Subsystem_ClampConfig => (1, (0, 0))
  | T_Clamp => (2, (0, 0))
  | T_Chassis c => (3, cfg c)
  | T_TankChassis c => (4, cfg c)
  | T_DriverControl c => (5, cfg c)
  | T_InputMapper c => (6, cfg c)
  | T_MacroSystem c => (7, cfg c)
  | T_EnhancedDriverControl c => (8, cfg c)
  end.

Definition TypeId_of_code (p : nat * (nat * nat)) : TypeId :=
  let c := mkConfig (DriveType_of_code p.2.1) (OdomType_of_code p.2.2) in
  match p.1 with
  | 0 => T_ISubsystem
  | 1 => T_Subsystem_ClampConfig
  | 2 => T_Clamp
  | 3 => T_Chassis c
  | 4 => T_TankChassis c
  | 5 => T_DriverControl c
  | 6 => T_InputMapper c
  | 7 => T_MacroSystem c
  | _ => T_EnhancedDriverControl c
  end.

#[global] Program Instance TypeId_countable : Countable TypeId :=
  inj_countable' TypeId_code TypeId_of_code _.
Next Obligation. by intros [| | |[[] []]|[[] []]|[[] []]|[[] []]|[[] []]|[[] []]]. Qed.

(** [derives D B]: a pointer to an object of class [D] converts to a
    pointer to [B] under [dynamic_pointer_cast]. *)
Definition derives (D B : TypeId) : bool :=
  bool_decide (D = B) ||
  match D, B with
  | _, T_ISubsystem => true
  | T_Clamp, T_Subsystem_ClampConfig => true
  | T_TankChassis c, T_Chassis c' => bool_decide (c = c')
  | _, _ => false
  end.

Module SubsystemRegistry.

(** A [shared_ptr] is the address of the object it shares. *)
Abbreviation ptr := positive (only parsing).

(** What the registry sees of a subsystem object. *)
Record Object := mkObject {
  dynamic_type : TypeId;
  getName : string;
  isEnabled : bool
}.

Definition Object_initialize (o : Object) : Object :=
  mkObject (dynamic_type o) (getName o) true.

(** A [std::any] that holds a [std::shared_ptr<any_type>]. *)
Record any := mkAny { any_type : TypeId; any_ptr : ptr }.

Inductive result (A : Type) := Ok (a : A) | bad_any_cast.
Arguments Ok {A} a.
Arguments bad_any_cast {A}.

Definition any_cast (T : TypeId) (a : any) : result ptr :=
  if decide (any_type a = T) then Ok (any_ptr a) else bad_any_cast.

Record t := mk {
  subsystems_ : gmap string ptr;
  type_cache_ : gmap TypeId any
}.

Definition empty : t := mk ∅ ∅.

Definition dynamic_pointer_cast (T : TypeId) (heap : gmap positive Object)
    (p : ptr) : option ptr :=
  match heap !! p with
  | Some o => if derives (dynamic_type o) T then Some p else None
  | None => None
  end.

(** [registerSubsystem<T>(subsystem)]; [None] when the pointer does not
    point to an object. *)
Definition registerSubsystem (T : TypeId) (subsystem : ptr)
    (r : t) (heap : gmap positive Object) : option (t * gmap positive Object) :=
  o ← heap !! subsystem;
  let name := getName o in
  Some (mk (<[name := subsystem]> (subsystems_ r))
           (<[T := mkAny T subsystem]> (type_cache_ r)),
        <[subsystem := Object_initialize o]> heap).

(** [getSubsystem<T>(name)]; [None] is [nullptr]. *)
Definition getSubsystem (T : TypeId) (name : string)
    (r : t) (heap : gmap positive Object) : option ptr :=
  match subsystems_ r !! name with
  | Some p => dynamic_pointer_cast T heap p
  | None => None
  end.

(** [getSubsystemByType<T>()]; [Ok None] is [nullptr]. *)
Definition getSubsystemByType (T : TypeId) (r : t) : result (option ptr) :=
  match type_cache_ r !! T with
  | Some a =>
      match any_cast T a with
      | Ok p => Ok (Some p)
      | bad_any_cast => bad_any_cast
      end
  | None => Ok None
  end.

Definition Object_disable (o : Object) : Object :=
  mkObject (dynamic_type o) (getName o) false.

(** The virtual [disable()] of the object at [p], as far as the enabled
    flags go.  Every class clears its own flag.
    [EnhancedDriverControl::disable] also calls [macro_system_.disable()],
    which clears the flag of the macro system that its member
    [macro_system_] refers to: [macro_system_ p] is the address that the
    member of the arbitrator at [p] refers to.  The other effects of the
    overriders (the motors that [Chassis::disable] and
    [DriverControl::disable] stop, the active macro that
    [MacroSystem::disable] clears) are on state that [Object] does not
    hold. *)
Definition disable (macro_system_ : ptr → ptr) (p : ptr)
    (heap : gmap positive Object) : gmap positive Object :=
  match heap !! p with
  | Some o =>
      let heap := <[p := Object_disable o]> heap in
      match dynamic_type o with
      | T_EnhancedDriverControl _ => alter Object_disable (macro_system_ p) heap
      | _ => heap
      end
  | None => heap
  end.

(** [disableAll()]: [disable()] on the object of every entry of
    [subsystems_], in the order of the map. *)
Definition disableAll (macro_system_ : ptr → ptr) (r : t)
    (heap : gmap positive Object) : gmap positive Object :=
  foldl (λ heap entry, disable macro_system_ entry.2 heap) heap
        (map_to_list (subsystems_ r)).

(** [std::make_shared]: the object is put at an address not in use. *)
Definition make_shared (o : Object) (heap : gmap positive Object)
    : ptr * gmap positive Object :=
  let p := fresh (dom heap) in (p, <[p := o]> heap).

End SubsystemRegistry.

Module EventSystem.

(** The types of the payloads that are emitted. *)
Inductive type_index := T_bool | T_int | T_double | T_string.

#[global] Instance type_index_eq_dec : EqDecision type_index.
Proof. solve_decision. Defined.

Definition cpp_type (T : type_index) : Type :=
  match T with
  | T_bool => bool
  | T_int => Z
  | T_double => double
  | T_string => string
  end.

(** A [std::any]: a value and its type. *)
Record any := mkAny { any_type : type_index; any_value : cpp_type any_type }.

(** [std::any_cast<T>(&data)]: [None] is the null pointer. *)
Definition any_cast (T : type_index) (data : any) : option (cpp_type T) :=
  match decide (any_type data = T) with
  | left e => Some (eq_rect (any_type data) cpp_type (any_value data) T e)
  | right _ => None
  end.

Section WithWorld.
Context {World : Type}.

Record t := mk {
  handlers_ : gmap string (list (any → World → World))
}.

Definition empty : t := mk ∅.

Definition subscribe (T : type_index) (event_type : string)
    (handler : cpp_type T → World → World) (es : t) : t :=
  let wrapped := λ (data : any) (w : World),
    match any_cast T data with
    | Some typed_data => handler typed_data w
    | None => w
    end in
  mk (<[event_type := default [] (handlers_ es !! event_type) ++ [wrapped]]>
        (handlers_ es)).

Definition emit (T : type_index) (event_type : string) (data : cpp_type T)
    (es : t) (w : World) : World :=
  match handlers_ es !! event_type with
  | Some handlers => foldl (λ w handler, handler (mkAny T data) w) w handlers
  | None => w
  end.

End WithWorld.
Arguments t : clear implicits.

End EventSystem.

(** ** subsystems/clamp.hpp *)

Module adi.

(** A digital output: its port and the value last set. *)
Record DigitalOut := mkDigitalOut { adi_port : Ascii.ascii; get_value : bool }.

Definition DigitalOut_new (port : Ascii.ascii) : DigitalOut := mkDigitalOut port false.

Definition set_value (value : bool) (d : DigitalOut) : DigitalOut :=
  mkDigitalOut (adi_port d) value.

End adi.

Module Clamp.

Record ClampConfig := mkClampConfig {
  dev_mode : bool;
  port : Ascii.ascii;
  default_state : bool
}.

Definition ClampConfig_new (port_num : Ascii.ascii) (dev : bool) : ClampConfig :=
  mkClampConfig dev port_num false.

Record t := mk {
  name_ : string;
  enabled_ : bool;
  config_ : ClampConfig;
  solenoid_ : option adi.DigitalOut;
  is_clamped_ : bool
}.

Definition new (name : string) (config : ClampConfig) : t :=
  mk name false config None false.

Section WithWorld.
Context {World : Type}.

(** [events] is the event system, which [emit] leaves as it is; the
    handlers act on the [World]. *)
Definition setState (events : EventSystem.t World) (clamped : bool)
    (c : t) (w : World) : t * World :=
  if bool_decide (is_clamped_ c ≠ clamped) then
    let solenoid :=
      if negb (dev_mode (config_ c))
      then adi.set_value clamped <$> solenoid_ c
      else solenoid_ c in
    (mk (name_ c) (enabled_ c) (config_ c) solenoid clamped,
     EventSystem.emit EventSystem.T_bool "clamp_state_changed" clamped events w)
  else (c, w).

Definition initialize (events : EventSystem.t World) (c : t) (w : World) : t * World :=
  let '(c, w) :=
    if negb (dev_mode (config_ c)) then
      setState events (default_state (config_ c))
        (mk (name_ c) (enabled_ c) (config_ c)
            (Some (adi.DigitalOut_new (port (config_ c)))) (is_clamped_ c)) w
    else (c, w) in
  (mk (name_ c) true (config_ c) (solenoid_ c) (is_clamped_ c), w).

Definition toggle (events : EventSystem.t World) (c : t) (w : World) : t * World :=
  setState events (negb (is_clamped_ c)) c w.

Definition setClamp (events : EventSystem.t World) (clamped : bool)
    (c : t) (w : World) : t * World :=
  setState events clamped c w.

End WithWorld.

Definition update (c : t) : t := c.

Definition disable (c : t) : t :=
  mk (name_ c) false (config_ c) (solenoid_ c) (is_clamped_ c).

Definition isClamped (c : t) : bool := is_clamped_ c.

End Clamp.

(** ** The example control system *)

Module control_system.

Section WithMacro.
Context {World M : Type} `{!Macro World M}.

(** [while (macro_system.isMacroActive()) { macro_system.update();
    pros::delay(10); }], [None] when [fuel] updates have not made the
    system idle. *)
Fixpoint update_while_active (fuel : nat) (ms : MacroSystem.t M) (w : World)
    : option (MacroSystem.t M * World) :=
  if MacroSystem.isMacroActive ms then
    match fuel with
    | O => None
    | S fuel' =>
        let '(ms, w) := MacroSystem.update ms w in
        update_while_active fuel' ms w
    end
  else Some (ms, w).

Definition runAutonomousRoutine (fuel : nat) (ms : MacroSystem.t M) (w : World)
    : option (MacroSystem.t M * World) :=
  let ms := (MacroSystem.startMacro "turn_180" ms).2 in
  match update_while_active fuel ms w with
  | None => None
  | Some (ms, w) =>
      let ms := (MacroSystem.startMacro "square_pattern" ms).2 in
      update_while_active fuel ms w
  end.

End WithMacro.

End control_system.

(** ** The example robot *)

Module robot.
Local Open Scope R_scope.

Definition ChassisType_Config : ChassisConfig := mkConfig TANK IMU_ENHANCED.

(** The two global pointers, once [initializeChassis] has set them. *)
Record t := mk { chassis : TankChassis.t; driver : DriverControl.t }.

(** [controller] is what the controller that the driver control opens
    reads. *)
Definition initializeChassis (controller : Controller) : t :=
  let chassis := TankChassis.new "tank_chassis" in
  let chassis := TankChassis.addMotor 1 false chassis in
  let chassis := TankChassis.addMotor 2 false chassis in
  let chassis := TankChassis.addMotor 3 true chassis in
  let chassis := TankChassis.addMotor 4 true chassis in
  let chassis := TankChassis.initializeSensors ChassisType_Config 10 (-1) (-1) chassis in
  let driver_config :=
    DriverControl.mkDriverConfig DriveMode.SPLIT 1.8
      (DriverControl.deadzone DriverControl.DriverConfig_default) 0.7
      (DriverControl.controller_id DriverControl.DriverConfig_default) in
  mk chassis (DriverControl.mk "driver" driver_config controller false).

(** Each call of [moveTo] and [turnTo] is given the delays that fall into
    it. *)
Definition moveToGoal (fuel : nat) (ticks1 ticks2 : list Tick)
    (chassis : TankChassis.t) : option TankChassis.t :=
  chassis ← TankChassis.moveTo ChassisType_Config fuel ticks1
               (field.position field.mobile_goals.CENTER) false chassis;
  let '(pos, chassis) := TankChassis.getPosition ChassisType_Config chassis in
  let angle := Position.angleTo pos (field.position field.ladder.HIGH_STAKE) in
  TankChassis.turnTo ChassisType_Config fuel ticks2 angle chassis.

Definition updateDriverControl (r : t) : t :=
  mk (TankChassis.with_base (DriverControl.update (driver r)) (chassis r)) (driver r).

Definition runAutonomous (fuel : nat) (ticks1 ticks2 ticks3 : list Tick)
    (chassis : TankChassis.t) : option TankChassis.t :=
  chassis ← TankChassis.moveTo ChassisType_Config fuel ticks1
               (field.position field.mobile_goals.CENTER) false chassis;
  chassis ← TankChassis.turnTo ChassisType_Config fuel ticks2 0 chassis;
  TankChassis.moveTo ChassisType_Config fuel ticks3
    (field.position field.mobile_goals.BOTTOM_LEFT) false chassis.

End robot.

(** ** robot_state.hpp, as far as the registry goes *)

Module RobotState.

(** [MainChassisConfig] derives from [ChassisConfig<TANK, IMU_ENHANCED>]
    and is the only configuration used in [RobotState].  To [typeid] it is
    a type of its own, which [TypeId] cannot tell from its base: what is
    stated of [RobotState] holds for any value given to it here, and says
    nothing of templates instantiated at the base. *)
Definition MainChassisConfig : ChassisConfig := mkConfig TANK IMU_ENHANCED.

Inductive outcome (A : Type) :=
  | Returns (a : A)
  | runtime_error (what : string)
  | bad_any_cast.
Arguments Returns {A} a.
Arguments runtime_error {A} what.
Arguments bad_any_cast {A}.

(** [std::make_shared] and [registerSubsystem] of one subsystem. *)
Definition make_and_register (T : TypeId) (name : string)
    (s : SubsystemRegistry.t * gmap positive SubsystemRegistry.Object)
    : option (SubsystemRegistry.t * gmap positive SubsystemRegistry.Object) :=
  let '(p, heap) :=
    SubsystemRegistry.make_shared (SubsystemRegistry.mkObject T name false) s.2 in
  SubsystemRegistry.registerSubsystem T p s.1 heap.

(** What [initializeSubsystems] does to the registry and to the objects it
    holds. *)
Definition initializeSubsystems
    (s : SubsystemRegistry.t * gmap positive SubsystemRegistry.Object)
    : option (SubsystemRegistry.t * gmap positive SubsystemRegistry.Object) :=
  s ← make_and_register (T_TankChassis MainChassisConfig) "main_chassis" s;
  s ← make_and_register T_Clamp "main_clamp" s;
  s ← make_and_register (T_DriverControl MainChassisConfig) "main_driver" s;
  s ← make_and_register (T_InputMapper MainChassisConfig) "main_input_mapper" s;
  s ← make_and_register (T_MacroSystem MainChassisConfig) "main_macro" s;
  make_and_register (T_EnhancedDriverControl MainChassisConfig)
    "main_enhanced_driver" s.

Definition getClamp (r : SubsystemRegistry.t)
    (heap : gmap positive SubsystemRegistry.Object) : outcome positive :=
  match SubsystemRegistry.getSubsystem T_Clamp "main_clamp" r heap with
  | Some clamp => Returns clamp
  | None => runtime_error "Clamp subsystem not initialized"
  end.

Definition getChassis (r : SubsystemRegistry.t) : outcome positive :=
  match SubsystemRegistry.getSubsystemByType (T_Chassis MainChassisConfig) r with
  | SubsystemRegistry.Ok (Some chassis) => Returns chassis
  | SubsystemRegistry.Ok None => runtime_error "Chassis subsystem not initialized"
  | SubsystemRegistry.bad_any_cast => bad_any_cast
  end.

End RobotState.

(** ** Quantities the statements are about *)

(** The velocity that the motor loop of the driver control gives the motor
    at index [i] of [count] motors. *)
Definition side_velocity (count : nat) (left right : R) (i : nat) : R :=
  ((if bool_decide (i < count / 2)%nat then left else right) * 200)%R.

(** The presses recorded in the window: the number of recorded times that
    are at most [window] before [now]. *)
Definition presses_in_window (now window : Z) (history : list (Z * string)) : nat :=
  length (filter (λ time, (now - time ≤ window)%Z) history.*1).

(** What a check of a binding leaves alone: the tables and the flag of the
    mapper, the sticks and the held buttons; of the pending presses it may
    only consume some. *)
Definition check_frame {World : Type} (m : InputMapper.t World) (controller : Controller)
    (m' : InputMapper.t World) (controller' : Controller) : Prop :=
  InputMapper.name_ m' = InputMapper.name_ m
  ∧ InputMapper.bindings_ m' = InputMapper.bindings_ m
  ∧ InputMapper.actions_ m' = InputMapper.actions_ m
  ∧ InputMapper.enabled_ m' = InputMapper.enabled_ m
  ∧ get_analog controller' = get_analog controller
  ∧ get_digital controller' = get_digital controller
  ∧ ∀ b, pending_press controller' b = true → pending_press controller b = true.

(** What holds of every state of a macro system: disabled, it is idle; and
    the active macro, if any, is in the catalog. *)
Definition macro_system_ok {M : Type} (ms : MacroSystem.t M) : Prop :=
  (MacroSystem.enabled_ ms = false → MacroSystem.active_macro_ ms = "")
  ∧ (MacroSystem.active_macro_ ms ≠ "" →
     is_Some (MacroSystem.macros_ ms !! MacroSystem.active_macro_ ms)).

(** The type cache holds, under every type, a pointer of that very type. *)
Definition type_cache_ok (r : SubsystemRegistry.t) : Prop :=
  ∀ T a, SubsystemRegistry.type_cache_ r !! T = Some a →
         SubsystemRegistry.any_type a = T.

(** The objects whose flag the [disable()] of the object at [a] clears:
    the object itself and, for an arbitrator, its macro system. *)
Definition disable_reach (macro_system_ : positive → positive)
    (heap : gmap positive SubsystemRegistry.Object) (a : positive) : list positive :=
  match heap !! a with
  | Some o =>
      a :: match SubsystemRegistry.dynamic_type o with
           | T_EnhancedDriverControl _ => [macro_system_ a]
           | _ => []
           end
  | None => []
  end.

(** The objects that [disableAll] reaches: those that a name of the
    registry leads to, and the macro systems of the arbitrators that a name
    leads to. *)
Definition reached_by_disableAll (macro_system_ : positive → positive)
    (r : SubsystemRegistry.t) (heap : gmap positive SubsystemRegistry.Object)
    (p : positive) : Prop :=
  (∃ name, SubsystemRegistry.subsystems_ r !! name = Some p)
  ∨ (∃ name a o Config,
       SubsystemRegistry.subsystems_ r !! name = Some a
       ∧ heap !! a = Some o
       ∧ SubsystemRegistry.dynamic_type o = T_EnhancedDriverControl Config
       ∧ macro_system_ a = p).

(** ** States of the robot used as examples *)

Definition plain_config : ChassisConfig := mkConfig TANK NONE.

(** The configuration of the robot. *)
Definition robot_config : ChassisConfig := mkConfig TANK IMU_ENHANCED.

(** A chassis with one motor that was commanded to turn and that has never
    been initialized: it is disabled. *)
Definition idle_chassis : TankChassis.t :=
  TankChassis.setMotorVelocity 0 100
    (TankChassis.addMotor 1 false (TankChassis.new "tank_chassis")).

(** The same chassis, initialized, its sensor set up and reading 90
    degrees. *)
Definition robot_chassis : TankChassis.t :=
  TankChassis.delay (mkTick 90 0 0 false)
    (TankChassis.initializeSensors robot_config 9 (-1) (-1)
       (TankChassis.initialize idle_chassis)).

(** Both sticks pushed to the end, split arcade, turn scale 1, on a chassis
    of four motors. *)
Definition full_stick : Controller :=
  mkController
    (λ a, match a with ANALOG_LEFT_Y | ANALOG_RIGHT_X => 127 | _ => 0 end%Z)
    (λ _, false) (λ _, false).

Definition split_driver : DriverControl.t :=
  DriverControl.mk "driver" (DriverControl.mkDriverConfig DriveMode.SPLIT 1.5 0.05 1 0)
    full_stick true.

Definition four_motor_chassis : Chassis.t :=
  Chassis.addMotor 4 true (Chassis.addMotor 3 true
    (Chassis.addMotor 2 false (Chassis.addMotor 1 false (Chassis.new "chassis")))).

Definition idle_controller : Controller :=
  mkController (λ _, 0%Z) (λ _, false) (λ _, false).

(** Two presses of R1 recorded 100 ms and 50 ms before time 1000. *)
Definition two_presses : InputMapper.t unit :=
  InputMapper.mk "input" ∅ ∅ [(900, "8"); (950, "8")]%Z true.


(** A macro system that has a macro registered under A and that was never
    initialized: it is disabled, and idle. *)
Definition fresh_macros : MacroSystem.t (MovementMacro.t unit) :=
  MacroSystem.registerMacro "A" (MovementMacro.new (λ w : unit, w))
    (MacroSystem.new "macros").

(** The same with a macro B, initialized. *)
Definition two_macros : MacroSystem.t (MovementMacro.t unit) :=
  MacroSystem.initialize
    (MacroSystem.registerMacro "B" (MovementMacro.new (λ w : unit, w)) fresh_macros).

(** An arbitrator whose macro system runs A. *)
Definition running_refs : EnhancedDriverControl.Refs unit (MovementMacro.t unit) :=
  EnhancedDriverControl.mkRefs (MacroSystem.startMacro "A" two_macros).2
    (InputMapper.new "input") idle_controller tt.

Definition arbitrator : EnhancedDriverControl.t :=
  EnhancedDriverControl.initialize
    (EnhancedDriverControl.mk "enhanced_driver" DriverControl.DriverConfig_default false).

(** Two clamps that bear the same name, and the tank chassis of the robot. *)
Definition three_objects : gmap positive SubsystemRegistry.Object :=
  <[1%positive := SubsystemRegistry.mkObject T_Clamp "main_clamp" false]>
  (<[2%positive := SubsystemRegistry.mkObject T_Clamp "main_clamp" false]>
  (<[3%positive := SubsystemRegistry.mkObject (T_TankChassis robot_config)
                     "tank_chassis" false]> ∅)).

(** A handler for bool that logs what it is called with, the last value
    first, subscribed to the topic of the clamp. *)
Definition log_bool (b : bool) (seen : list bool) : list bool := b :: seen.

Definition clamp_topic : EventSystem.t (list bool) :=
  EventSystem.subscribe EventSystem.T_bool "clamp_state_changed" log_bool
    EventSystem.empty.

(** A chassis with tracking wheels: both wheels have made one turn, the
    heading is 0. *)
Definition tracking_config : ChassisConfig := mkConfig TANK TRACKING.

Definition tracking_chassis : TankChassis.t :=
  TankChassis.delay (mkTick 0 360 360 false)
    (TankChassis.initializeSensors tracking_config 9 1 2
       (TankChassis.initialize (TankChassis.new "tank_chassis"))).

(** A driver control that was never initialized. *)
Definition disabled_driver : DriverControl.t :=
  DriverControl.mk "driver" DriverControl.DriverConfig_default full_stick false.

(** A controller on which R1 and L2 have just been pressed. *)
Definition R1_L2_pressed : Controller :=
  mkController (λ _, 0%Z) (λ _, false)
    (λ b, match b with DIGITAL_R1 | DIGITAL_L2 => true | _ => false end).

Definition R1_button : InputBinding :=
  mkInputBinding BUTTON [DIGITAL_R1] ANALOG_LEFT_Y 0 500.

(** A macro system with a macro registered under the empty name. *)
Definition nameless_macros : MacroSystem.t (MovementMacro.t unit) :=
  MacroSystem.initialize
    (MacroSystem.registerMacro "" (MovementMacro.new (λ w : unit, w))
       (MacroSystem.new "macros")).


(** The two clamps and the chassis, an arbitrator, and the macro system
    that the arbitrator refers to, which is enabled. *)
Definition five_objects : gmap positive SubsystemRegistry.Object :=
  <[4%positive := SubsystemRegistry.mkObject (T_EnhancedDriverControl robot_config)
                     "main_enhanced_driver" false]>
  (<[5%positive := SubsystemRegistry.mkObject (T_MacroSystem robot_config)
                     "main_macro" true]> three_objects).

Definition macro_system_at_5 (p : positive) : positive := 5%positive.

(** The two clamps registered one after the other, under their common
    name, and then the arbitrator; the macro system is not registered. *)
Definition clamps_and_arbitrator_registered
    : option (SubsystemRegistry.t * gmap positive SubsystemRegistry.Object) :=
  first ← SubsystemRegistry.registerSubsystem T_Clamp 1
             SubsystemRegistry.empty five_objects;
  second ← SubsystemRegistry.registerSubsystem T_Clamp 2 first.1 first.2;
  SubsystemRegistry.registerSubsystem (T_EnhancedDriverControl robot_config) 4
    second.1 second.2.

(** A chassis of the robot's configuration on which [initializeSensors] was
    never called, as [RobotState] leaves it in dev mode, after a delay in
    which the robot was turned to 90 degrees. *)
Definition sensorless_chassis : TankChassis.t :=
  TankChassis.delay (mkTick 90 0 0 false)
    (TankChassis.initialize
       (TankChassis.addMotor 1 false (TankChassis.new "main_chassis"))).

(** The clamp of the robot, in dev mode. *)
Definition dev_clamp : Clamp.t :=
  Clamp.new "main_clamp" (Clamp.ClampConfig_new (Ascii.ascii_of_nat 66) true).

(** * Properties *)

(** ** Loops and real arithmetic *)

Section while_loop.
Context {S : Type} (cond : S → bool) (body : S → S).

Lemma while_loop_exit fuel s r :
  while_loop cond body fuel s = Some r → cond r = false.
Proof.
  revert s. induction fuel as [|fuel IH]; intros s; simpl;
    destruct (cond s) eqn:Hc; try discriminate; eauto; congruence.
Qed.

Lemma while_loop_fuel_mono fuel fuel' s r :
  while_loop cond body fuel s = Some r → fuel ≤ fuel' →
  while_loop cond body fuel' s = Some r.
Proof.
  revert fuel' s. induction fuel as [|fuel IH]; intros fuel' s; simpl.
  - destruct fuel'; simpl; destruct (cond s); intros; try discriminate; done.
  - destruct (cond s) eqn:Hc.
    + intros Hr Hle. destruct fuel' as [|fuel']; [lia|].
      simpl. rewrite Hc. apply IH; [done | lia].
    + intros Hr _. destruct fuel'; simpl; by rewrite Hc.
Qed.

End while_loop.

Local Open Scope R_scope.

Lemma PI_bounds : 3.1415 < PI < 3.1421.
Proof.
  pose proof (PI_2_3_7_ineq 1) as [Hl Hu].
  unfold sum_f_R0, tg_alt, PI_2_3_7_tg, Ratan_seq in Hl, Hu.
  simpl in Hl, Hu. split; lra.
Qed.

Lemma nat_above (a : R) : ∃ n : nat, a < INR n.
Proof.
  destruct (archimed a) as [Hup _].
  exists (Z.to_nat (up a)).
  destruct (Z_le_gt_dec (up a) 0) as [Hle | Hgt].
  - apply IZR_le in Hle. pose proof (pos_INR (Z.to_nat (up a))). lra.
  - rewrite INR_IZR_INZ, Z2Nat.id by lia. lra.
Qed.

(** ** The normalization of angle errors *)

Section normalize.
Import TankChassis.

Lemma subtract_loop n e :
  e <= M_PI + 2 * M_PI * INR n →
  ∃ r, while_loop (λ e, bool_decide (e > M_PI)) (λ e, e - 2 * M_PI) n e = Some r
       ∧ r <= M_PI ∧ (e <= M_PI → r = e) ∧ (e > M_PI → - M_PI < r)
       ∧ ∃ k : nat, r = e - 2 * M_PI * INR k.
Proof.
  unfold M_PI. pose proof PI_RGT_0 as Hpi.
  revert e. induction n as [|n IH]; intros e He.
  - simpl in *. exists e. rewrite bool_decide_eq_false_2 by lra.
    repeat split; try done; try lra. exists 0%nat. simpl. lra.
  - rewrite S_INR in He. simpl. case_bool_decide as Hgt.
    + destruct (IH (e - 2 * PI)) as (r & Hr & Hle & Hid & Hlo & k & Hk); [lra|].
      exists r. repeat split; try done; try lra.
      exists (Datatypes.S k). rewrite S_INR. lra.
    + exists e. repeat split; try done; try lra. exists 0%nat. simpl. lra.
Qed.

Lemma add_loop n e :
  - M_PI - 2 * M_PI * INR n <= e →
  ∃ r, while_loop (λ e, bool_decide (e < - M_PI)) (λ e, e + 2 * M_PI) n e = Some r
       ∧ - M_PI <= r ∧ (- M_PI <= e → r = e) ∧ (e < - M_PI → r < M_PI)
       ∧ ∃ k : nat, r = e + 2 * M_PI * INR k.
Proof.
  unfold M_PI. pose proof PI_RGT_0 as Hpi.
  revert e. induction n as [|n IH]; intros e He.
  - simpl in *. exists e. rewrite bool_decide_eq_false_2 by lra.
    repeat split; try done; try lra. exists 0%nat. simpl. lra.
  - rewrite S_INR in He. simpl. case_bool_decide as Hlt.
    + destruct (IH (e + 2 * PI)) as (r & Hr & Hle & Hid & Hhi & k & Hk); [lra|].
      exists r. repeat split; try done; try lra.
      exists (Datatypes.S k). rewrite S_INR. lra.
    + exists e. repeat split; try done; try lra. exists 0%nat. simpl. lra.
Qed.

(** With enough fuel the two loops end, on a value of [[-PI, PI]] that
    differs from the error by a multiple of [2 PI]. *)
Lemma normalize_total e :
  ∃ fuel0 : nat, ∀ fuel, (fuel0 ≤ fuel)%nat →
    ∃ r, normalize fuel e = Some r ∧ - M_PI <= r <= M_PI
         ∧ ∃ k : Z, r = e + 2 * M_PI * IZR k.
Proof.
  pose proof PI_RGT_0 as Hpi.
  destruct (nat_above (Rabs e / (2 * PI))) as [n Hn].
  assert (Rabs e < 2 * PI * INR n) as Hb.
  { apply (Rmult_lt_compat_l (2 * PI)) in Hn; [|lra].
    replace (2 * PI * (Rabs e / (2 * PI))) with (Rabs e) in Hn by (field; lra).
    done. }
  assert (- (2 * PI * INR n) < e < 2 * PI * INR n) as [Hlo Hhi].
  { apply Rabs_def2 in Hb. lra. }
  exists n. intros fuel Hfuel.
  destruct (subtract_loop n e) as (r1 & Hr1 & Hle1 & Hid1 & Hlo1 & k1 & Hk1);
    [unfold M_PI; lra|].
  assert (- M_PI - 2 * M_PI * INR n <= r1) as Hr1lo.
  { unfold M_PI in *. destruct (Rle_or_lt e PI) as [Hs | Hs].
    - rewrite Hid1 by done. lra.
    - specialize (Hlo1 Hs). pose proof (pos_INR n). nra. }
  destruct (add_loop n r1 Hr1lo) as (r & Hr & Hle & Hid & Hhi2 & k2 & Hk2).
  exists r. split; [|split].
  - unfold normalize.
    rewrite (while_loop_fuel_mono _ _ _ _ _ _ Hr1 Hfuel). simpl.
    by rewrite (while_loop_fuel_mono _ _ _ _ _ _ Hr Hfuel).
  - split; [done|]. unfold M_PI in *.
    destruct (Rle_or_lt (- PI) r1) as [Hs | Hs].
    + rewrite Hid by done. done.
    + specialize (Hhi2 Hs). lra.
  - exists (Z.of_nat k2 - Z.of_nat k1)%Z.
    rewrite minus_IZR, <- !INR_IZR_INZ. lra.
Qed.

End normalize.




(** ** The tank chassis *)

Section tank_chassis.
Import TankChassis.
Variable Config : ChassisConfig.

Lemma stop_motors c :
  Forall (λ m, motor_velocity m = 0) (motors_ (stop c)).
Proof.
  unfold stop, with_base, motors_, Chassis.stop. simpl.
  apply Forall_fmap, Forall_true. done.
Qed.

Lemma moveTo_enabled fuel ticks target reverse c c' :
  enabled_ c = true →
  moveTo Config fuel ticks target reverse c = Some c' →
  ∃ c1, moveTo_loop Config fuel ticks target reverse c = Some c1 ∧ c' = stop c1.
Proof.
  unfold moveTo. intros ->. simpl.
  destruct (moveTo_loop _ _ _ _ _ _) as [c1|]; simpl; [|done].
  intros [= <-]. eauto.
Qed.

Lemma moveTo_disabled fuel ticks target reverse c :
  enabled_ c = false →
  moveTo Config fuel ticks target reverse c = Some c.
Proof. unfold moveTo. by intros ->. Qed.

(** The loop of [moveTo] ends for one of two reasons: the chassis is
    disabled, or the position just read is within the tolerance. *)
Lemma moveTo_loop_exit fuel ticks target reverse c c' :
  moveTo_loop Config fuel ticks target reverse c = Some c' →
  enabled_ c' = false
  ∨ ∃ c0, c' = (getPosition Config c0).2
          ∧ Position.distanceTo (getPosition Config c0).1 target < 1.
Proof.
  revert c. induction ticks as [|k ticks IH]; intros c; simpl;
    (destruct (enabled_ c) eqn:He; simpl; [|intros [= <-]; auto]);
    destruct (getPosition Config c) as [current c1] eqn:Hp;
    (case_decide as Hd;
       [intros [= <-]; right; exists c; by rewrite Hp|]);
    (destruct (normalize _ _); [|done]); [done | apply IH].
Qed.

End tank_chassis.

Section tank_chassis_returns.
Import TankChassis.
Variable Config : ChassisConfig.

Lemma normalize_fuel_mono fuel fuel' e r :
  normalize fuel e = Some r → (fuel ≤ fuel')%nat → normalize fuel' e = Some r.
Proof.
  unfold normalize. intros Hn Hle.
  destruct (while_loop _ _ fuel e) as [e1|] eqn:H1; simpl in Hn; [|done].
  rewrite (while_loop_fuel_mono _ _ _ _ _ _ H1 Hle). simpl.
  by apply (while_loop_fuel_mono _ _ fuel).
Qed.

Lemma moveTo_loop_disabled fuel ticks target reverse c :
  enabled_ c = false → moveTo_loop Config fuel ticks target reverse c = Some c.
Proof. intros He. destruct ticks; simpl; by rewrite He. Qed.

Lemma delay_disables k c : tick_disable k = true → enabled_ (delay k c) = false.
Proof. unfold delay. by intros ->. Qed.

(** If one of the coming delays brings the disabling, the loop of [moveTo]
    ends, given fuel enough for the normalizations on the way. *)
Lemma moveTo_loop_returns_once_disabled ticks target reverse c :
  Exists (λ k, tick_disable k = true) ticks →
  ∃ fuel0 : nat, ∀ fuel, (fuel0 ≤ fuel)%nat →
    is_Some (moveTo_loop Config fuel ticks target reverse c).
Proof.
  revert c. induction ticks as [|k ticks IH]; intros c Hex.
  { by apply Exists_nil in Hex. }
  destruct (enabled_ c) eqn:He.
  2: { exists 0%nat. intros fuel _. by rewrite moveTo_loop_disabled. }
  simpl. rewrite He. simpl.
  destruct (getPosition Config c) as [current c1].
  case_decide as Hd; [exists 0%nat; eauto|].
  set (e := if reverse then _ else _).
  destruct (normalize_total e) as (fuel1 & Hnorm).
  destruct (Hnorm fuel1 (le_n _)) as (r & Hr & _).
  assert (∀ c2, ∃ fuel2 : nat, ∀ fuel, (fuel2 ≤ fuel)%nat →
            is_Some (moveTo_loop Config fuel ticks target reverse (delay k c2)))
    as Hrest.
  { intros c2. apply Exists_cons in Hex as [Hk | Hlater]; [|by apply IH].
    exists 0%nat. intros fuel _.
    rewrite moveTo_loop_disabled; [done|]. by apply delay_disables. }
  destruct (Hrest
    (with_base (λ b, Chassis.set_motors
       (drive_motors (λ is_left : bool,
          kP * Position.distanceTo current target
          + (if is_left then kTurnP * r else - (kTurnP * r)))
          (Chassis.motors_ b)) b) c1)) as (fuel2 & Hnext).
  exists (fuel1 `max` fuel2)%nat. intros fuel Hfuel.
  rewrite (normalize_fuel_mono fuel1 fuel e r Hr) by lia.
  apply Hnext. lia.
Qed.

Lemma moveTo_returns_once_disabled ticks target reverse c :
  Exists (λ k, tick_disable k = true) ticks →
  ∃ fuel0 : nat, ∀ fuel, (fuel0 ≤ fuel)%nat →
    is_Some (moveTo Config fuel ticks target reverse c).
Proof.
  intros Hex.
  destruct (moveTo_loop_returns_once_disabled ticks target reverse c Hex)
    as (fuel0 & Hloop).
  exists fuel0. intros fuel Hfuel. unfold moveTo.
  destruct (enabled_ c); simpl; [|done].
  by destruct (Hloop fuel Hfuel) as [c1 ->].
Qed.

End tank_chassis_returns.

(** C1 (as the code has it): a call of [moveTo] that starts enabled and
    returns, returns with [stop()] done after the loop, so that every motor
    is commanded velocity 0, whether the loop ended on the tolerance or on
    the chassis being disabled; a call that starts disabled returns at once
    and leaves the chassis, its motors included, as it is.  The call does
    return once the chassis has been disabled during one of its delays. *)
Theorem moveTo_stops_unless_disabled_at_entry Config ticks target reverse
    (c : TankChassis.t) :
  (∀ fuel c',
     TankChassis.moveTo Config fuel ticks target reverse c = Some c' →
     (TankChassis.enabled_ c = true →
        (∃ c1, TankChassis.moveTo_loop Config fuel ticks target reverse c = Some c1
               ∧ c' = TankChassis.stop c1)
        ∧ Forall (λ m, motor_velocity m = 0) (TankChassis.motors_ c'))
     ∧ (TankChassis.enabled_ c = false → c' = c))
  ∧ (Exists (λ k, tick_disable k = true) ticks →
     ∃ fuel0 : nat, ∀ fuel, (fuel0 ≤ fuel)%nat →
       is_Some (TankChassis.moveTo Config fuel ticks target reverse c)).
Proof.
  split; [|apply moveTo_returns_once_disabled].
  intros fuel c' Hm. split.
  - intros He. destruct (moveTo_enabled _ _ _ _ _ _ _ He Hm) as (c1 & H1 & ->).
    split; [eauto|]. apply stop_motors.
  - intros He. rewrite moveTo_disabled in Hm by done. congruence.
Qed.

Lemma distance_to_origin :
  Position.distanceTo (Position.mk 0 0 0) (field.mkPoint 0 0) = 0.
Proof.
  unfold Position.distanceTo. simpl.
  replace ((0 - 0) * (0 - 0) + (0 - 0) * (0 - 0)) with 0 by ring.
  apply sqrt_0.
Qed.

(** C1, as stated, fails for a chassis that is disabled at entry: the call
    returns before the loop and before [stop()], and the motor keeps the
    velocity it had. *)
Lemma moveTo_disabled_at_entry_does_not_stop :
  TankChassis.enabled_ idle_chassis = false
  ∧ TankChassis.moveTo plain_config 0 [] (field.mkPoint 24 0) false idle_chassis
    = Some idle_chassis
  ∧ motor_velocity <$> TankChassis.motors_ idle_chassis = [100]
  ∧ ¬ Forall (λ m, motor_velocity m = 0) (TankChassis.motors_ idle_chassis).
Proof.
  split; [reflexivity|]. split; [reflexivity|]. split; [reflexivity|].
  intros H. apply Forall_inv in H. simpl in H. lra.
Qed.

Lemma moveTo_at_target :
  TankChassis.moveTo plain_config 0 [] (field.mkPoint 0 0) false
    (TankChassis.initialize idle_chassis)
  = Some (TankChassis.stop (TankChassis.initialize idle_chassis)).
Proof.
  unfold TankChassis.moveTo. simpl.
  change (TankChassis.current_pos_ _) with (Position.mk 0 0 0).
  rewrite distance_to_origin. rewrite decide_True by lra. reflexivity.
Qed.

Lemma moveTo_stops_witness :
  TankChassis.enabled_ (TankChassis.initialize idle_chassis) = true
  ∧ motor_velocity <$> TankChassis.motors_ (TankChassis.initialize idle_chassis) = [100]
  ∧ Forall (λ m, motor_velocity m = 0)
      (TankChassis.motors_ (TankChassis.stop (TankChassis.initialize idle_chassis))).
Proof.
  split; [reflexivity|]. split; [reflexivity|].
  destruct (moveTo_stops_unless_disabled_at_entry plain_config []
              (field.mkPoint 0 0) false (TankChassis.initialize idle_chassis))
    as [Hstops _].
  destruct (Hstops 0%nat _ moveTo_at_target) as [Henabled _].
  apply Henabled. reflexivity.
Defined.

(** A run that ends because the chassis is disabled while [moveTo] sleeps:
    the target is 10 units ahead, the first delay brings the disabling. *)
Example moveTo_disabled_while_running :
  TankChassis.moveTo plain_config 0 [mkTick 0 0 0 true] (field.mkPoint 10 0) false
    (TankChassis.initialize idle_chassis)
  = Some (TankChassis.stop (TankChassis.disable idle_chassis)).
Proof.
  pose proof PI_RGT_0 as Hpi.
  unfold TankChassis.moveTo. simpl.
  change (TankChassis.current_pos_ _) with (Position.mk 0 0 0).
  assert (Position.distanceTo (Position.mk 0 0 0) (field.mkPoint 10 0) = 10) as ->.
  { unfold Position.distanceTo. simpl.
    replace ((10 - 0) * (10 - 0) + (0 - 0) * (0 - 0)) with (10 * 10) by ring.
    apply sqrt_square. lra. }
  rewrite decide_False by lra.
  assert (Position.angleTo (Position.mk 0 0 0) (field.mkPoint 10 0) - 0 = 0) as ->.
  { unfold Position.angleTo, atan2. simpl. rewrite decide_True by lra.
    replace ((0 - 0) / (10 - 0)) with 0 by (field; lra). rewrite atan_0. lra. }
  unfold TankChassis.normalize, M_PI. simpl.
  rewrite bool_decide_eq_false_2 by lra. simpl.
  rewrite bool_decide_eq_false_2 by lra. reflexivity.
Qed.

Section tank_chassis_odometry.
Import TankChassis.
Variable Config : ChassisConfig.
Hypothesis imu_enhanced : odomType Config = IMU_ENHANCED.

Lemma getPosition_imu_enhanced_frame c :
  (getPosition Config c).2 = c
  ∧ Position.x (getPosition Config c).1 = Position.x (current_pos_ c)
  ∧ Position.y (getPosition Config c).1 = Position.y (current_pos_ c).
Proof.
  unfold getPosition. rewrite imu_enhanced. by destruct (imu_ c).
Qed.

Lemma delay_current_pos k c : current_pos_ (delay k c) = current_pos_ c.
Proof. unfold delay. by destruct (tick_disable k). Qed.

Lemma moveTo_loop_current_pos fuel ticks target reverse c c' :
  moveTo_loop Config fuel ticks target reverse c = Some c' →
  current_pos_ c' = current_pos_ c.
Proof.
  revert c. induction ticks as [|k ticks IH]; intros c; simpl;
    (destruct (enabled_ c); simpl; [|by intros [= <-]]);
    pose proof (getPosition_imu_enhanced_frame c) as (Hc & _);
    destruct (getPosition Config c) as [current c1]; simpl in Hc; subst c1;
    (case_decide as Hd; [by intros [= <-]|]);
    (destruct (normalize _ _); [|done]); [done|].
  intros Hl. apply IH in Hl. by rewrite delay_current_pos in Hl.
Qed.

End tank_chassis_odometry.

(** C7: under the IMU_ENHANCED strategy [getPosition] leaves the chassis,
    its stored position included, as it is; the position it returns has the
    stored x and y, and for heading the reading of the orientation sensor
    in radians (the stored heading when no sensor was set up).  Nothing
    advances the stored position during a [moveTo] either. *)
Theorem getPosition_imu_enhanced Config (c : TankChassis.t) :
  odomType Config = IMU_ENHANCED →
  (TankChassis.getPosition Config c).2 = c
  ∧ Position.x (TankChassis.getPosition Config c).1
    = Position.x (TankChassis.current_pos_ c)
  ∧ Position.y (TankChassis.getPosition Config c).1
    = Position.y (TankChassis.current_pos_ c)
  ∧ (∀ imu, TankChassis.imu_ c = Some imu →
       Position.heading (TankChassis.getPosition Config c).1
       = get_heading imu * PI / 180)
  ∧ (TankChassis.imu_ c = None →
       TankChassis.getPosition Config c = (TankChassis.current_pos_ c, c))
  ∧ (∀ fuel ticks target reverse c',
       TankChassis.moveTo Config fuel ticks target reverse c = Some c' →
       TankChassis.current_pos_ c' = TankChassis.current_pos_ c).
Proof.
  intros Hcfg.
  destruct (getPosition_imu_enhanced_frame Config Hcfg c) as (H1 & H2 & H3).
  repeat split; try done.
  - intros imu Himu. unfold TankChassis.getPosition. by rewrite Hcfg, Himu.
  - intros Himu. unfold TankChassis.getPosition. by rewrite Hcfg, Himu.
  - intros fuel ticks target reverse c'. unfold TankChassis.moveTo.
    destruct (TankChassis.enabled_ c); simpl; [|by intros [= <-]].
    destruct (TankChassis.moveTo_loop _ _ _ _ _ _) as [c1|] eqn:Hl; simpl; [|done].
    intros [= <-]. by apply moveTo_loop_current_pos in Hl.
Qed.

Lemma getPosition_imu_enhanced_witness :
  TankChassis.getPosition robot_config robot_chassis
  = (Position.mk 0 0 (90 * PI / 180), robot_chassis)
  ∧ (TankChassis.getPosition robot_config robot_chassis).2 = robot_chassis.
Proof.
  split; [reflexivity|].
  apply (getPosition_imu_enhanced robot_config robot_chassis). reflexivity.
Defined.

(** C7, as stated, fails for a chassis on which [initializeSensors] was
    never called: under the IMU_ENHANCED strategy, with the robot turned to
    90 degrees, [getPosition] returns the stored heading 0, since there is
    no sensor object to read. *)
Lemma getPosition_without_sensor_returns_stored_heading :
  odomType robot_config = IMU_ENHANCED
  ∧ TankChassis.enabled_ sensorless_chassis = true
  ∧ TankChassis.imu_ sensorless_chassis = None
  ∧ TankChassis.getPosition robot_config sensorless_chassis
    = (Position.mk 0 0 0, sensorless_chassis)
  ∧ Position.heading (TankChassis.getPosition robot_config sensorless_chassis).1
    ≠ 90 * PI / 180.
Proof.
  split; [reflexivity|]. split; [reflexivity|]. split; [reflexivity|].
  split; [reflexivity|]. simpl. pose proof PI_bounds. lra.
Qed.

(** ** Driver control *)

Section driver_control.
Import DriverControl.

Lemma apply_to_motors_prefix left right chassis k :
  (k ≤ length (Chassis.motors_ chassis))%nat →
  let chassis' :=
    foldl (λ chassis i,
             Chassis.setMotorVelocity (Z.of_nat i)
               ((if bool_decide (i < Chassis.getMotorCount chassis / 2)%nat
                 then left else right) * 200) chassis)
          chassis (seq 0 k) in
  length (Chassis.motors_ chassis') = length (Chassis.motors_ chassis)
  ∧ ∀ j, Chassis.motors_ chassis' !! j =
         if decide (j < k)%nat
         then move_velocity
                (side_velocity (length (Chassis.motors_ chassis)) left right j)
              <$> Chassis.motors_ chassis !! j
         else Chassis.motors_ chassis !! j.
Proof.
  induction k as [|k IH]; intros Hk; cbv zeta.
  - split; [done|]. intros j. by destruct (decide (j < 0)%nat); [lia|].
  - rewrite seq_S, foldl_app. simpl.
    destruct IH as [Hlen Hlook]; [lia|].
    set (ch := foldl _ chassis (seq 0 k)) in *.
    unfold Chassis.setMotorVelocity, Chassis.getMotorCount.
    rewrite decide_True by (rewrite Hlen; lia). simpl.
    rewrite Nat2Z.id. split.
    + by rewrite length_alter.
    + intros j. destruct (decide (j = k)) as [->|Hne].
      * rewrite list_lookup_alter_eq, Hlook.
        rewrite decide_False, decide_True by lia. by rewrite Hlen.
      * rewrite list_lookup_alter_ne, Hlook by done.
        destruct (decide (j < k)%nat), (decide (j < Datatypes.S k)%nat); try lia; done.
Qed.

Lemma apply_to_motors_lookup left right chassis j :
  Chassis.motors_ (apply_to_motors left right chassis) !! j =
  move_velocity (side_velocity (length (Chassis.motors_ chassis)) left right j)
    <$> Chassis.motors_ chassis !! j.
Proof.
  unfold apply_to_motors, Chassis.getMotorCount.
  destruct (apply_to_motors_prefix left right chassis
              (length (Chassis.motors_ chassis))) as [_ Hlook]; [done|].
  rewrite Hlook. case_decide as Hj; [done|].
  by rewrite (lookup_ge_None_2 _ j) by lia.
Qed.

Lemma apply_to_motors_length left right chassis :
  length (Chassis.motors_ (apply_to_motors left right chassis))
  = length (Chassis.motors_ chassis).
Proof.
  by destruct (apply_to_motors_prefix left right chassis
                 (length (Chassis.motors_ chassis))) as [Hlen _].
Qed.

Lemma arcade_mix_bounded drive turn :
  Rabs (arcade_mix drive turn).1 <= 1 ∧ Rabs (arcade_mix drive turn).2 <= 1.
Proof.
  unfold arcade_mix.
  set (l := drive + turn). set (r := drive - turn).
  pose proof (Rmax_l (Rabs l) (Rabs r)) as Hl.
  pose proof (Rmax_r (Rabs l) (Rabs r)) as Hr.
  set (m := Rmax (Rabs l) (Rabs r)) in *.
  case_decide as Hm; simpl.
  - assert (0 < m) by lra.
    unfold Rdiv. rewrite !Rabs_mult, (Rabs_inv m), (Rabs_pos_eq m) by lra.
    split; apply (Rmult_le_reg_r m); try done;
      rewrite Rmult_assoc, Rinv_l by lra; lra.
  - split; lra.
Qed.

End driver_control.

(** C4: while the driver control is enabled, [processArcadeDrive] writes,
    to every motor of the left half, [left] scaled by 200 and, to every
    motor of the right half, [right] scaled by 200, where
    [left = drive + turn] and [right = drive - turn] are both divided by
    [max (|left|, |right|)] when that maximum exceeds 1 and are unchanged
    otherwise, [drive] and [turn] being the stick values after deadzone,
    curve and turn scale.  So drive = 1, turn = 1 mixes to (2, 0) and is
    written as (1, 0); drive = 0.5, turn = 0.5 at turn scale 0.8 mixes to
    (0.9, 0.1), which is written as it is. *)
Theorem processArcadeDrive_mixing (split : bool) (dc : DriverControl.t)
    (chassis : Chassis.t) :
  DriverControl.enabled_ dc = true →
  let stick a := IZR (get_analog (DriverControl.controller_ dc) a) / 127 in
  let drive :=
    DriverControl.applyCurve dc (DriverControl.applyDeadzone dc (stick ANALOG_LEFT_Y)) in
  let turn :=
    DriverControl.applyCurve dc
      (DriverControl.applyDeadzone dc
         (stick (if split then ANALOG_RIGHT_X else ANALOG_LEFT_X)))
    * DriverControl.turn_scale (DriverControl.config_ dc) in
  let left := drive + turn in
  let right := drive - turn in
  let max := Rmax (Rabs left) (Rabs right) in
  let written v := if decide (max > 1) then v / max else v in
  let count := length (Chassis.motors_ chassis) in
  (∀ i motor, Chassis.motors_ chassis !! i = Some motor →
     Chassis.motors_ (DriverControl.processArcadeDrive split dc chassis) !! i
     = Some (move_velocity
               ((if decide (i < count / 2)%nat then written left else written right)
                * 200) motor))
  ∧ length (Chassis.motors_ (DriverControl.processArcadeDrive split dc chassis))
    = count
  ∧ Rabs (written left) <= 1 ∧ Rabs (written right) <= 1
  ∧ (DriverControl.mode (DriverControl.config_ dc) = DriveMode.ARCADE →
       DriverControl.update dc chassis
       = DriverControl.processArcadeDrive false dc chassis)
  ∧ (DriverControl.mode (DriverControl.config_ dc) = DriveMode.SPLIT →
       DriverControl.update dc chassis
       = DriverControl.processArcadeDrive true dc chassis)
  ∧ (1 + 1 = 2 ∧ 1 - 1 = 0 ∧ DriverControl.arcade_mix 1 1 = (1, 0))
  ∧ (0.5 * 0.8 = 0.4 ∧ DriverControl.arcade_mix 0.5 (0.5 * 0.8) = (0.9, 0.1)).
Proof.
  intros Hen stick drive turn left right max written count.
  assert (DriverControl.arcade_mix drive turn = (written left, written right)) as Hmix.
  { unfold DriverControl.arcade_mix, written. fold left right max.
    by destruct (decide (max > 1)). }
  assert (DriverControl.processArcadeDrive split dc chassis
          = DriverControl.apply_to_motors (written left) (written right) chassis)
    as Hrun.
  { unfold DriverControl.processArcadeDrive. rewrite Hen. simpl.
    replace (DriverControl.arcade_mix _ _) with (written left, written right); [done|].
    rewrite <- Hmix. unfold drive, turn, stick. by destruct split. }
  rewrite Hrun. split; [|split; [|split; [|split; [|split; [|split; [|split]]]]]].
  - intros i motor Hi. rewrite apply_to_motors_lookup, Hi.
    unfold side_velocity. fold count.
    by destruct (decide (i < count / 2)%nat);
      [rewrite bool_decide_eq_true_2 by done | rewrite bool_decide_eq_false_2 by done].
  - apply apply_to_motors_length.
  - pose proof (arcade_mix_bounded drive turn) as [Hb _]. by rewrite Hmix in Hb.
  - pose proof (arcade_mix_bounded drive turn) as [_ Hb]. by rewrite Hmix in Hb.
  - intros Hmode. unfold DriverControl.update. by rewrite Hen, Hmode.
  - intros Hmode. unfold DriverControl.update. by rewrite Hen, Hmode.
  - split; [lra|]. split; [lra|]. unfold DriverControl.arcade_mix.
    replace (1 + 1) with 2 by lra. replace (1 - 1) with 0 by lra.
    rewrite Rabs_R0, (Rabs_pos_eq 2), Rmax_left by lra.
    rewrite decide_True by lra. f_equal; lra.
  - split; [lra|]. unfold DriverControl.arcade_mix.
    replace (0.5 + 0.5 * 0.8) with 0.9 by lra.
    replace (0.5 - 0.5 * 0.8) with 0.1 by lra.
    rewrite (Rabs_pos_eq 0.9), (Rabs_pos_eq 0.1), Rmax_left by lra.
    by rewrite decide_False by lra.
Qed.

Lemma full_stick_curve :
  DriverControl.applyCurve split_driver
    (DriverControl.applyDeadzone split_driver (IZR 127 / 127)) = 1.
Proof.
  replace (IZR 127 / 127) with 1 by (field; lra).
  unfold DriverControl.applyDeadzone, DriverControl.applyCurve. simpl.
  rewrite Rabs_R1, decide_False by lra.
  rewrite Rabs_R1, decide_False by lra.
  unfold pow. rewrite decide_False by lra.
  unfold Rpower. rewrite ln_1, Rmult_0_r, exp_0. lra.
Qed.

Lemma processArcadeDrive_mixing_witness :
  motor_velocity <$>
    Chassis.motors_ (DriverControl.processArcadeDrive true split_driver
                       four_motor_chassis) !! 0%nat = Some 200
  ∧ motor_velocity <$>
      Chassis.motors_ (DriverControl.processArcadeDrive true split_driver
                         four_motor_chassis) !! 2%nat = Some 0.
Proof.
  destruct (processArcadeDrive_mixing true split_driver four_motor_chassis eq_refl)
    as (Hlook & _).
  change (get_analog (DriverControl.controller_ split_driver) ANALOG_LEFT_Y)
    with 127%Z in Hlook.
  change (get_analog (DriverControl.controller_ split_driver) ANALOG_RIGHT_X)
    with 127%Z in Hlook.
  rewrite full_stick_curve in Hlook.
  change (DriverControl.turn_scale (DriverControl.config_ split_driver)) with 1 in Hlook.
  replace (1 + 1 * 1) with 2 in Hlook by lra.
  replace (1 - 1 * 1) with 0 in Hlook by lra.
  rewrite Rabs_R0, (Rabs_pos_eq 2), Rmax_left in Hlook by lra.
  rewrite !decide_True in Hlook by lra.
  split.
  - rewrite (Hlook 0%nat (mkMotor 1 false 0)) by reflexivity.
    simpl. f_equal. lra.
  - rewrite (Hlook 2%nat (mkMotor 3 true 0)) by reflexivity.
    simpl. f_equal. lra.
Defined.

(** ** The input mapper *)

Section input_mapper.
Import InputMapper.
Context {World : Type}.
Implicit Types (m : InputMapper.t World) (history : list (Z * string)).


Lemma pruned_history_length now window history :
  length (filter (λ entry, ¬ (now - entry.1 > window)%Z) history)
  = presses_in_window now window history.
Proof.
  unfold presses_in_window.
  induction history as [|[time label] history IH]; [done|].
  rewrite fmap_cons, !filter_cons. simpl.
  destruct (decide (¬ (now - time > window)%Z)), (decide (now - time ≤ window)%Z);
    simpl; try lia.
Qed.

Lemma sequence_matches_always controller btns :
  forallb (λ btn, bool_decide (get_digital controller btn = get_digital controller btn))
    btns = true.
Proof.
  induction btns as [|btn btns IH]; [done|]. simpl.
  by rewrite bool_decide_eq_true_2, IH.
Qed.


End input_mapper.



(** ** The macro system *)

Section macro_system.
Import MacroSystem.
Context {World M : Type} `{!Macro World M}.
Implicit Types (ms : MacroSystem.t M) (name : string).

Lemma startMacro_disabled name ms :
  enabled_ ms = false → startMacro name ms = (false, ms).
Proof. unfold startMacro. by intros ->. Qed.

Lemma startMacro_busy_or_unknown name ms :
  active_macro_ ms ≠ "" ∨ macros_ ms !! name = None →
  startMacro name ms = (false, ms).
Proof.
  unfold startMacro. intros [Hbusy | Hunknown].
  - destruct (enabled_ ms); simpl; [|done].
    destruct (macros_ ms !! name); [|done].
    by rewrite bool_decide_eq_false_2.
  - rewrite Hunknown. by destruct (enabled_ ms).
Qed.

Lemma startMacro_started name ms macro :
  enabled_ ms = true → active_macro_ ms = "" → macros_ ms !! name = Some macro →
  startMacro name ms
  = (true, mk (name_ ms) (<[name := reset macro]> (macros_ ms)) name true).
Proof.
  unfold startMacro. by intros -> -> ->.
Qed.

End macro_system.

(** C2 (as the code has it): [startMacro] returns false and changes nothing
    when a macro is already active or the name is not in the catalog; when
    the system is enabled, no macro is active and the name is in the
    catalog, it resets the named macro, stores the name as the active one
    and returns true.  So, on an enabled idle system that knows A and B,
    starting A succeeds, starting B right after fails and leaves A active,
    and once an update has run A to completion starting B succeeds. *)
Theorem startMacro_when_enabled {World M : Type} `{!Macro World M}
    (name : string) (ms : MacroSystem.t M) :
  (MacroSystem.active_macro_ ms ≠ "" ∨ MacroSystem.macros_ ms !! name = None →
     MacroSystem.startMacro name ms = (false, ms))
  ∧ (∀ macro,
       MacroSystem.enabled_ ms = true →
       MacroSystem.active_macro_ ms = "" →
       MacroSystem.macros_ ms !! name = Some macro →
       MacroSystem.startMacro name ms
       = (true, MacroSystem.mk (MacroSystem.name_ ms)
                  (<[name := reset macro]> (MacroSystem.macros_ ms)) name true)
       ∧ (name ≠ "" →
            MacroSystem.isMacroActive (MacroSystem.startMacro name ms).2 = true))
  ∧ (∀ a b (w : World),
       MacroSystem.enabled_ ms = true →
       MacroSystem.active_macro_ ms = "" →
       MacroSystem.macros_ ms !! "A" = Some a →
       MacroSystem.macros_ ms !! "B" = Some b →
       isComplete (execute (reset a) w).1 = true →
       let started := MacroSystem.startMacro "A" ms in
       let refused := MacroSystem.startMacro "B" started.2 in
       let ticked := MacroSystem.update refused.2 w in
       let restarted := MacroSystem.startMacro "B" ticked.1 in
       started.1 = true
       ∧ refused = (false, started.2)
       ∧ MacroSystem.active_macro_ refused.2 = "A"
       ∧ MacroSystem.active_macro_ ticked.1 = ""
       ∧ restarted.1 = true
       ∧ MacroSystem.active_macro_ restarted.2 = "B").
Proof.
  split; [apply startMacro_busy_or_unknown|]. split.
  - intros macro Hen Hidle Hknown.
    rewrite (startMacro_started name ms macro) by done. split; [done|].
    intros Hname. unfold MacroSystem.isMacroActive. simpl.
    by rewrite bool_decide_eq_false_2.
  - intros a b w Hen Hidle Ha Hb Hdone. cbv zeta.
    rewrite (startMacro_started "A" ms a) by done. simpl.
    rewrite startMacro_busy_or_unknown by (by left). simpl.
    split; [done|]. split; [done|]. split; [done|].
    unfold MacroSystem.update. simpl.
    rewrite lookup_insert_eq.
    destruct (execute (reset a) w) as [a' w'] eqn:Hexec. simpl in Hdone.
    rewrite Hdone. simpl. split; [done|].
    erewrite startMacro_started; [done| done | done |].
    simpl. by rewrite !lookup_insert_ne.
Qed.

(** C2, as stated, fails on a disabled system: no macro is active and the
    name is in the catalog, and yet the call returns false and starts
    nothing. *)
Lemma startMacro_disabled_refuses_known_macro :
  MacroSystem.active_macro_ fresh_macros = ""
  ∧ MacroSystem.macros_ fresh_macros !! "A" = Some (MovementMacro.new (λ w : unit, w))
  ∧ MacroSystem.startMacro "A" fresh_macros = (false, fresh_macros).
Proof.
  split; [done|]. split; [apply lookup_insert_eq | done].
Qed.

Lemma startMacro_when_enabled_witness :
  (MacroSystem.startMacro "A" two_macros).1 = true
  ∧ MacroSystem.startMacro "B" (MacroSystem.startMacro "A" two_macros).2
    = (false, (MacroSystem.startMacro "A" two_macros).2).
Proof.
  destruct (startMacro_when_enabled "A" two_macros) as (_ & _ & Hrun).
  destruct (Hrun (MovementMacro.new (λ w : unit, w)) (MovementMacro.new (λ w : unit, w)) tt)
    as (H1 & H2 & _); try done.
Defined.

(** C10: on a disabled macro system [startMacro] returns false and leaves
    the system (active name, catalog and all) as it is, whatever the name,
    registered or not, and whether or not a macro is active. *)
Theorem startMacro_disabled_fails {World M : Type} `{!Macro World M}
    (name : string) (ms : MacroSystem.t M) :
  MacroSystem.enabled_ ms = false →
  MacroSystem.startMacro name ms = (false, ms)
  ∧ MacroSystem.active_macro_ (MacroSystem.startMacro name ms).2
    = MacroSystem.active_macro_ ms
  ∧ MacroSystem.macros_ (MacroSystem.startMacro name ms).2
    = MacroSystem.macros_ ms.
Proof. intros Hdis. by rewrite startMacro_disabled. Qed.

Lemma startMacro_disabled_fails_witness :
  MacroSystem.enabled_ fresh_macros = false
  ∧ is_Some (MacroSystem.macros_ fresh_macros !! "A")
  ∧ MacroSystem.active_macro_ fresh_macros = ""
  ∧ MacroSystem.startMacro "A" fresh_macros = (false, fresh_macros).
Proof.
  split; [done|]. split; [eexists; apply lookup_insert_eq|]. split; [done|].
  apply (startMacro_disabled_fails (World := unit) "A" fresh_macros). done.
Defined.

(** ** The arbitrator *)

(** C5: an update of the enabled arbitrator invokes exactly one sub-update:
    with a macro active, the update of the macro system and nothing else
    (the input mapper and the controller it polls are left as they are);
    with no macro active, the update of the input mapper and nothing
    else. *)
Theorem update_routes_one_way {World M : Type} `{!Macro World M}
    (clock : string → Z) (e : EnhancedDriverControl.t)
    (r : EnhancedDriverControl.Refs World M) :
  EnhancedDriverControl.enabled_ e = true →
  let out := EnhancedDriverControl.update clock e r in
  let ms := EnhancedDriverControl.macro_system_ r in
  length out.2 = 1%nat
  ∧ (MacroSystem.isMacroActive ms = true →
       out.2 = [EnhancedDriverControl.MacroSystem_update]
       ∧ (EnhancedDriverControl.macro_system_ out.1, EnhancedDriverControl.world out.1)
         = MacroSystem.update ms (EnhancedDriverControl.world r)
       ∧ EnhancedDriverControl.input_mapper_ out.1
         = EnhancedDriverControl.input_mapper_ r
       ∧ EnhancedDriverControl.controller out.1 = EnhancedDriverControl.controller r)
  ∧ (MacroSystem.isMacroActive ms = false →
       out.2 = [EnhancedDriverControl.InputMapper_update]
       ∧ (EnhancedDriverControl.input_mapper_ out.1,
          EnhancedDriverControl.controller out.1,
          (EnhancedDriverControl.macro_system_ out.1, EnhancedDriverControl.world out.1))
         = InputMapper.update clock (EnhancedDriverControl.input_mapper_ r)
             (EnhancedDriverControl.controller r)
             (ms, EnhancedDriverControl.world r)).
Proof.
  intros Hen out ms. subst out ms. unfold EnhancedDriverControl.update.
  rewrite Hen. simpl.
  destruct (MacroSystem.isMacroActive _) eqn:Hactive.
  - destruct (MacroSystem.update _ _) as [ms' w']. simpl. by repeat split.
  - destruct (InputMapper.update _ _ _ _) as [[im c] [ms' w']]. simpl.
    by repeat split.
Qed.

Lemma update_routes_one_way_witness :
  MacroSystem.isMacroActive (EnhancedDriverControl.macro_system_ running_refs) = true
  ∧ (EnhancedDriverControl.update (λ _, 0%Z) arbitrator running_refs).2
    = [EnhancedDriverControl.MacroSystem_update]
  ∧ EnhancedDriverControl.input_mapper_
      (EnhancedDriverControl.update (λ _, 0%Z) arbitrator running_refs).1
    = InputMapper.new "input".
Proof.
  destruct (update_routes_one_way (λ _, 0%Z) arbitrator running_refs eq_refl)
    as (_ & Hmacro & _).
  assert (MacroSystem.isMacroActive (EnhancedDriverControl.macro_system_ running_refs)
          = true) as Hactive by reflexivity.
  destruct (Hmacro Hactive) as (Hcalls & _ & Hmapper & _).
  split; [exact Hactive|]. split; [exact Hcalls | exact Hmapper].
Defined.

(** ** The registry *)

Section registry.
Import SubsystemRegistry.
Implicit Types (r : SubsystemRegistry.t) (heap : gmap positive Object).

Lemma registerSubsystem_Some T p r heap r' heap' :
  registerSubsystem T p r heap = Some (r', heap') →
  ∃ o, heap !! p = Some o
       ∧ r' = mk (<[getName o := p]> (subsystems_ r))
                 (<[T := mkAny T p]> (type_cache_ r))
       ∧ heap' = <[p := Object_initialize o]> heap.
Proof.
  unfold registerSubsystem. destruct (heap !! p) as [o|]; simpl; [|done].
  intros [= <- <-]. eauto.
Qed.

Lemma getSubsystem_Some T name r heap p :
  getSubsystem T name r heap = Some p → subsystems_ r !! name = Some p.
Proof.
  unfold getSubsystem, dynamic_pointer_cast.
  destruct (subsystems_ r !! name) as [q|]; [|done].
  destruct (heap !! q) as [o|]; [|done].
  destruct (derives _ _); [|done]. by intros [= ->].
Qed.

End registry.

(** C8: after two subsystems were registered under one name, a lookup by
    that name gives the second one or nothing, never the first; it gives
    the second one when asked at the type it was registered under.  A
    lookup by type at a type other than the one of a registration is not
    changed by this registration: it is empty when nothing else was
    registered under the type asked for, even if the object could be
    converted to it. *)
Theorem registry_name_and_type_lookup
    (T1 T2 : TypeId) (p1 p2 : positive) (o1 o2 : SubsystemRegistry.Object)
    (r r1 r2 : SubsystemRegistry.t)
    (heap heap1 heap2 : gmap positive SubsystemRegistry.Object) :
  SubsystemRegistry.registerSubsystem T1 p1 r heap = Some (r1, heap1) →
  SubsystemRegistry.registerSubsystem T2 p2 r1 heap1 = Some (r2, heap2) →
  heap !! p1 = Some o1 →
  heap1 !! p2 = Some o2 →
  SubsystemRegistry.getName o1 = SubsystemRegistry.getName o2 →
  let name := SubsystemRegistry.getName o2 in
  SubsystemRegistry.subsystems_ r1 !! name = Some p1
  ∧ SubsystemRegistry.subsystems_ r2 !! name = Some p2
  ∧ (∀ T p, SubsystemRegistry.getSubsystem T name r2 heap2 = Some p → p = p2)
  ∧ (derives (SubsystemRegistry.dynamic_type o2) T2 = true →
       SubsystemRegistry.getSubsystem T2 name r2 heap2 = Some p2)
  ∧ (∀ T, T ≠ T2 →
       SubsystemRegistry.getSubsystemByType T r2
       = SubsystemRegistry.getSubsystemByType T r1)
  ∧ (∀ T, T ≠ T1 → T ≠ T2 → SubsystemRegistry.type_cache_ r !! T = None →
       SubsystemRegistry.getSubsystemByType T r2 = SubsystemRegistry.Ok None)
  ∧ SubsystemRegistry.getSubsystemByType T2 r2 = SubsystemRegistry.Ok (Some p2).
Proof.
  intros Hreg1 Hreg2 Ho1 Ho2 Hname name.
  apply registerSubsystem_Some in Hreg1 as (o1' & Ho1' & -> & ->).
  apply registerSubsystem_Some in Hreg2 as (o2' & Ho2' & -> & ->).
  assert (o1' = o1) as -> by congruence.
  assert (o2' = o2) as -> by congruence.
  subst name. simpl. rewrite Hname.
  split; [apply lookup_insert_eq|]. split; [apply lookup_insert_eq|].
  split; [|split; [|split; [|split]]].
  - intros T p Hget. apply getSubsystem_Some in Hget. simpl in Hget.
    rewrite lookup_insert_eq in Hget. congruence.
  - intros Hderives.
    unfold SubsystemRegistry.getSubsystem, SubsystemRegistry.dynamic_pointer_cast.
    simpl. rewrite !lookup_insert_eq. simpl. by rewrite Hderives.
  - intros T HT. unfold SubsystemRegistry.getSubsystemByType. simpl.
    by rewrite lookup_insert_ne.
  - intros T HT1 HT2 Hnone. unfold SubsystemRegistry.getSubsystemByType. simpl.
    by rewrite !lookup_insert_ne, Hnone.
  - unfold SubsystemRegistry.getSubsystemByType, SubsystemRegistry.any_cast. simpl.
    rewrite lookup_insert_eq. simpl. by rewrite decide_True.
Qed.

Lemma registry_name_and_type_lookup_witness :
  ∃ r2 heap2,
    (r1h ← SubsystemRegistry.registerSubsystem T_Clamp 1
              SubsystemRegistry.empty three_objects;
     SubsystemRegistry.registerSubsystem T_Clamp 2 r1h.1 r1h.2) = Some (r2, heap2)
    ∧ SubsystemRegistry.getSubsystem T_Clamp "main_clamp" r2 heap2 = Some 2%positive
    ∧ SubsystemRegistry.getSubsystemByType T_Subsystem_ClampConfig r2
      = SubsystemRegistry.Ok None.
Proof.
  destruct (SubsystemRegistry.registerSubsystem T_Clamp 1
              SubsystemRegistry.empty three_objects) as [[r1 heap1]|] eqn:Hreg1;
    [|discriminate].
  destruct (SubsystemRegistry.registerSubsystem T_Clamp 2 r1 heap1)
    as [[r2 heap2]|] eqn:Hreg2.
  2: { apply registerSubsystem_Some in Hreg1 as (o & Ho & -> & ->).
       discriminate. }
  exists r2, heap2. split; [done|].
  assert (heap1 !! 2%positive
          = Some (SubsystemRegistry.mkObject T_Clamp "main_clamp" false)) as Ho2.
  { apply registerSubsystem_Some in Hreg1 as (o & Ho & -> & ->). done. }
  destruct (registry_name_and_type_lookup T_Clamp T_Clamp 1 2 _ _ _ _ _ _ _ _
              Hreg1 Hreg2 eq_refl Ho2 eq_refl) as (_ & _ & _ & Hget & _ & Hempty & _).
  split; [by apply Hget | by apply Hempty].
Defined.

(** ** The event bus *)

Section event_system.
Import EventSystem.
Context {World : Type}.
Implicit Types (es : EventSystem.t World) (w : World).

Lemma any_cast_same T (data : cpp_type T) : any_cast T (mkAny T data) = Some data.
Proof.
  unfold any_cast. simpl. destruct (decide (T = T)) as [e|]; [|done].
  by rewrite (proof_irrel e eq_refl).
Qed.

Lemma any_cast_other T T' (data : cpp_type T') :
  T' ≠ T → any_cast T (mkAny T' data) = None.
Proof. intros Hne. unfold any_cast. simpl. by destruct (decide (T' = T)). Qed.

Lemma any_cast_Some T data (typed_data : cpp_type T) :
  any_cast T data = Some typed_data → any_type data = T.
Proof. unfold any_cast. by destruct (decide (any_type data = T)). Qed.

(** What [emit] does after one more subscription to the topic. *)
Lemma emit_subscribe T T' event_type (handler : cpp_type T → World → World)
    (data : cpp_type T') es w :
  emit T' event_type data (subscribe T event_type handler es) w
  = match any_cast T (mkAny T' data) with
    | Some typed_data => handler typed_data (emit T' event_type data es w)
    | None => emit T' event_type data es w
    end.
Proof.
  unfold emit, subscribe. simpl. rewrite lookup_insert_eq, foldl_app. simpl.
  by destruct (handlers_ es !! event_type).
Qed.

End event_system.

(** C9: a handler subscribed for payloads of type [T] is called by [emit]
    on its topic with the payload when the payload emitted has type [T],
    after the handlers subscribed before it; when the payload has another
    type, [emit] does what it does without this handler, whatever the
    handler is, and fails in no way: the handler is skipped.  So a handler
    for bool is not called when an int is emitted on its topic. *)
Theorem emit_calls_matching_handlers {World : Type}
    (T T' : EventSystem.type_index) (event_type : string)
    (handler : EventSystem.cpp_type T → World → World)
    (es : EventSystem.t World) (w : World) :
  (∀ data : EventSystem.cpp_type T',
     T' ≠ T →
     EventSystem.emit T' event_type data
       (EventSystem.subscribe T event_type handler es) w
     = EventSystem.emit T' event_type data es w)
  ∧ (∀ data : EventSystem.cpp_type T,
       EventSystem.emit T event_type data
         (EventSystem.subscribe T event_type handler es) w
       = handler data (EventSystem.emit T event_type data es w))
  ∧ (∀ (on_bool : bool → World → World) (n : Z),
       EventSystem.emit EventSystem.T_int event_type n
         (EventSystem.subscribe EventSystem.T_bool event_type on_bool es) w
       = EventSystem.emit EventSystem.T_int event_type n es w).
Proof.
  split; [|split].
  - intros data Hne. by rewrite emit_subscribe, any_cast_other.
  - intros data. by rewrite emit_subscribe, any_cast_same.
  - intros on_bool n. by rewrite emit_subscribe, any_cast_other.
Qed.

Lemma emit_calls_matching_handlers_witness :
  EventSystem.emit EventSystem.T_int "clamp_state_changed" 1%Z clamp_topic [] = []
  ∧ EventSystem.emit EventSystem.T_bool "clamp_state_changed" true clamp_topic []
    = [true].
Proof.
  destruct (emit_calls_matching_handlers EventSystem.T_bool EventSystem.T_int
              "clamp_state_changed" log_bool EventSystem.empty [])
    as (Hskip & _ & _).
  destruct (emit_calls_matching_handlers EventSystem.T_bool EventSystem.T_bool
              "clamp_state_changed" log_bool EventSystem.empty [])
    as (_ & Hcall & _).
  split.
  - unfold clamp_topic. rewrite (Hskip 1%Z) by discriminate. reflexivity.
  - unfold clamp_topic. rewrite (Hcall true). reflexivity.
Defined.

(** * Further properties *)

(** ** The chassis: motors *)

Section chassis_motors.
Import Chassis.

Lemma addMotor_motors port reversed c :
  motors_ (addMotor port reversed c)
  = motors_ c ++ take (10 - length (motors_ c)) [mkMotor port reversed 0].
Proof.
  unfold addMotor. case_decide as Hlen.
  - rewrite take_ge by (simpl; lia). by destruct reversed.
  - replace (10 - length (motors_ c))%nat with 0%nat by lia.
    by rewrite take_0, app_nil_r.
Qed.

Lemma addMotor_frame port reversed c :
  name_ (addMotor port reversed c) = name_ c
  ∧ current_pos_ (addMotor port reversed c) = current_pos_ c
  ∧ imu_ (addMotor port reversed c) = imu_ c
  ∧ enabled_ (addMotor port reversed c) = enabled_ c.
Proof. unfold addMotor. by case_decide. Qed.

End chassis_motors.

(** X1: of the motors added to a chassis, only those that fit in the
    capacity of 10 are kept, in the order they were added, each with its
    port and polarity and with velocity 0; the others are dropped without
    a sign, and nothing else of the chassis changes. *)
Theorem addMotor_keeps_first_ten (requests : list (Z * bool)) (c : Chassis.t) :
  let added := foldl (λ c request, Chassis.addMotor request.1 request.2 c) c requests in
  Chassis.motors_ added
  = Chassis.motors_ c
    ++ take (10 - length (Chassis.motors_ c))
         ((λ request, mkMotor request.1 request.2 0) <$> requests)
  ∧ Chassis.enabled_ added = Chassis.enabled_ c
  ∧ Chassis.current_pos_ added = Chassis.current_pos_ c
  ∧ Chassis.imu_ added = Chassis.imu_ c.
Proof.
  revert c. induction requests as [|[port reversed] requests IH]; intros c; simpl.
  - by rewrite take_nil, app_nil_r.
  - destruct (IH (Chassis.addMotor port reversed c)) as (Hm & He & Hp & Hi).
    destruct (addMotor_frame port reversed c) as (_ & Hp' & Hi' & He').
    rewrite Hm, He, Hp, Hi, He', Hp', Hi'. split; [|done].
    rewrite addMotor_motors, length_app, <- app_assoc. f_equal.
    destruct (decide (length (Chassis.motors_ c) < 10)%nat) as [Hlt|Hge].
    + rewrite (take_ge [_]) by (simpl; lia). simpl.
      destruct (10 - length (Chassis.motors_ c))%nat as [|n] eqn:Hd; [lia|].
      simpl. do 2 f_equal. lia.
    + replace (10 - length (Chassis.motors_ c))%nat with 0%nat by lia.
      rewrite !take_0. simpl.
      replace (10 - (length (Chassis.motors_ c) + 0))%nat with 0%nat by lia.
      by rewrite take_0.
Qed.

(** X2: [setMotorVelocity] changes the velocity of the motor at [index] and
    nothing else; with an index that is negative or not below the number of
    motors it changes nothing at all. *)
Theorem setMotorVelocity_one_motor (index : Z) (velocity : R) (c : Chassis.t) :
  (∀ j : nat,
     Chassis.motors_ (Chassis.setMotorVelocity index velocity c) !! j
     = if decide (index = Z.of_nat j)
       then move_velocity velocity <$> Chassis.motors_ c !! j
       else Chassis.motors_ c !! j)
  ∧ length (Chassis.motors_ (Chassis.setMotorVelocity index velocity c))
    = length (Chassis.motors_ c)
  ∧ ((index < 0 ∨ Z.of_nat (length (Chassis.motors_ c)) ≤ index)%Z →
       Chassis.setMotorVelocity index velocity c = c)
  ∧ Chassis.enabled_ (Chassis.setMotorVelocity index velocity c) = Chassis.enabled_ c
  ∧ Chassis.current_pos_ (Chassis.setMotorVelocity index velocity c)
    = Chassis.current_pos_ c.
Proof.
  unfold Chassis.setMotorVelocity.
  destruct (decide (0 ≤ index ∧ index < Z.of_nat (length (Chassis.motors_ c)))%Z)
    as [Hin|Hout]; simpl.
  - split; [|split; [by rewrite length_alter|split; [lia|done]]].
    intros j. case_decide as Hj.
    + subst index. by rewrite Nat2Z.id, list_lookup_alter_eq.
    + rewrite list_lookup_alter_ne; [done|]. lia.
  - split; [|done]. intros j. case_decide as Hj; [|done].
    subst index. rewrite (lookup_ge_None_2 _ j) by lia. done.
Qed.

Lemma setMotorVelocity_one_motor_witness :
  Chassis.setMotorVelocity 4 200 four_motor_chassis = four_motor_chassis
  ∧ Chassis.setMotorVelocity (-1) 200 four_motor_chassis = four_motor_chassis.
Proof.
  destruct (setMotorVelocity_one_motor 4 200 four_motor_chassis)
    as (_ & _ & Hhigh & _).
  destruct (setMotorVelocity_one_motor (-1) 200 four_motor_chassis)
    as (_ & _ & Hlow & _).
  split; [apply Hhigh | apply Hlow]; simpl; lia.
Defined.

(** [disable] leaves the chassis disabled with every motor commanded
    velocity 0, the motors being the same ones (ports and polarities, in
    order) and the position estimate untouched; disabling again changes
    nothing. *)
Lemma disable_stops_motors (c : Chassis.t) :
  Chassis.enabled_ (Chassis.disable c) = false
  ∧ Forall (λ m, motor_velocity m = 0%R) (Chassis.motors_ (Chassis.disable c))
  ∧ motor_port <$> Chassis.motors_ (Chassis.disable c)
    = motor_port <$> Chassis.motors_ c
  ∧ motor_reversed <$> Chassis.motors_ (Chassis.disable c)
    = motor_reversed <$> Chassis.motors_ c
  ∧ Chassis.current_pos_ (Chassis.disable c) = Chassis.current_pos_ c
  ∧ Chassis.disable (Chassis.disable c) = Chassis.disable c.
Proof.
  unfold Chassis.disable, Chassis.stop, Chassis.set_motors, Chassis.set_enabled.
  simpl. split; [done|]. split; [by apply Forall_fmap, Forall_true|].
  rewrite <- !list_fmap_compose. repeat split; done.
Qed.

(** ** The tank chassis: turning, and what the odometry allows *)

Section tank_chassis_turn.
Import TankChassis.
Variable Config : ChassisConfig.

Lemma turnTo_loop_disabled fuel ticks angle c :
  enabled_ c = false → turnTo_loop Config fuel ticks angle c = Some c.
Proof. intros He. destruct ticks; simpl; by rewrite He. Qed.

Lemma turnTo_loop_returns_once_disabled ticks angle c :
  Exists (λ k, tick_disable k = true) ticks →
  ∃ fuel0 : nat, ∀ fuel, (fuel0 ≤ fuel)%nat →
    is_Some (turnTo_loop Config fuel ticks angle c).
Proof.
  revert c. induction ticks as [|k ticks IH]; intros c Hex.
  { by apply Exists_nil in Hex. }
  destruct (enabled_ c) eqn:He.
  2: { exists 0%nat. intros fuel _. by rewrite turnTo_loop_disabled. }
  simpl. rewrite He. simpl.
  destruct (getPosition Config c) as [pos c1].
  destruct (normalize_total (angle - Position.heading pos)) as (fuel1 & Hnorm).
  destruct (Hnorm fuel1 (le_n _)) as (r & Hr & _).
  assert (∀ c2, ∃ fuel2 : nat, ∀ fuel, (fuel2 ≤ fuel)%nat →
            is_Some (turnTo_loop Config fuel ticks angle (delay k c2)))
    as Hrest.
  { intros c2. apply Exists_cons in Hex as [Hk | Hlater]; [|by apply IH].
    exists 0%nat. intros fuel _.
    rewrite turnTo_loop_disabled; [done|]. by apply delay_disables. }
  destruct (Hrest
    (with_base (λ b, Chassis.set_motors
       (drive_motors (λ is_left : bool,
          if is_left then kTurnP * r else - (kTurnP * r))
          (Chassis.motors_ b)) b) c1)) as (fuel2 & Hnext).
  exists (fuel1 `max` fuel2)%nat. intros fuel Hfuel.
  rewrite (normalize_fuel_mono fuel1 fuel _ r Hr) by lia.
  case_decide; [done|]. apply Hnext. lia.
Qed.

End tank_chassis_turn.

(** X3: a call of [turnTo] that starts enabled and returns has done
    [stop()] after its loop, so that every motor is commanded velocity 0; a
    call that starts disabled returns at once and changes nothing; the call
    does return once the chassis has been disabled during one of its
    delays; and when the heading error is within the tolerance at entry it
    returns without waiting for any delay. *)
Theorem turnTo_stops_unless_disabled_at_entry Config ticks angle
    (c : TankChassis.t) :
  (∀ fuel c',
     TankChassis.turnTo Config fuel ticks angle c = Some c' →
     (TankChassis.enabled_ c = true →
        Forall (λ m, motor_velocity m = 0) (TankChassis.motors_ c'))
     ∧ (TankChassis.enabled_ c = false → c' = c))
  ∧ (Exists (λ k, tick_disable k = true) ticks →
     ∃ fuel0 : nat, ∀ fuel, (fuel0 ≤ fuel)%nat →
       is_Some (TankChassis.turnTo Config fuel ticks angle c))
  ∧ (∀ fuel error,
       TankChassis.enabled_ c = true →
       TankChassis.normalize fuel
         (angle - Position.heading (TankChassis.getPosition Config c).1)
       = Some error →
       Rabs error < 0.05 →
       TankChassis.turnTo Config fuel ticks angle c
       = Some (TankChassis.stop (TankChassis.getPosition Config c).2)).
Proof.
  split; [|split].
  - intros fuel c'. unfold TankChassis.turnTo.
    destruct (TankChassis.enabled_ c); simpl.
    + destruct (TankChassis.turnTo_loop _ _ _ _ _) as [c1|]; simpl; [|done].
      intros [= <-]. split; [|done]. intros _. apply stop_motors.
    + intros [= <-]. by split.
  - intros Hex.
    destruct (turnTo_loop_returns_once_disabled Config ticks angle c Hex)
      as (fuel0 & Hloop).
    exists fuel0. intros fuel Hfuel. unfold TankChassis.turnTo.
    destruct (TankChassis.enabled_ c); simpl; [|done].
    by destruct (Hloop fuel Hfuel) as [c1 ->].
  - intros fuel error He Hnorm Htol. unfold TankChassis.turnTo.
    rewrite He. simpl.
    destruct ticks; simpl; rewrite He; simpl;
      destruct (TankChassis.getPosition Config c) as [pos c1]; simpl in *;
      rewrite Hnorm; by rewrite decide_True.
Qed.

Lemma turnTo_stops_witness :
  TankChassis.turnTo plain_config 0 [] 0 (TankChassis.initialize idle_chassis)
  = Some (TankChassis.stop (TankChassis.initialize idle_chassis))
  ∧ Forall (λ m, motor_velocity m = 0)
      (TankChassis.motors_ (TankChassis.stop (TankChassis.initialize idle_chassis))).
Proof.
  pose proof PI_RGT_0 as Hpi.
  destruct (turnTo_stops_unless_disabled_at_entry plain_config [] 0
              (TankChassis.initialize idle_chassis)) as (Hstops & _ & Hnear).
  assert (TankChassis.turnTo plain_config 0 [] 0 (TankChassis.initialize idle_chassis)
          = Some (TankChassis.stop (TankChassis.initialize idle_chassis))) as Hrun.
  { apply (Hnear 0%nat (0 - 0)).
    - reflexivity.
    - unfold TankChassis.normalize, M_PI. simpl.
      rewrite bool_decide_eq_false_2 by lra. simpl.
      by rewrite bool_decide_eq_false_2 by lra.
    - rewrite Rminus_diag, Rabs_R0. lra. }
  split; [exact Hrun|].
  destruct (Hstops 0%nat _ Hrun) as [Henabled _]. by apply Henabled.
Defined.

(** X4: when the position read at entry is within the tolerance of the
    target, [moveTo] on an enabled chassis returns from its first test,
    whatever delays would follow: no motor has been commanded but by the
    final [stop()]. *)
Theorem moveTo_within_tolerance Config fuel ticks target reverse
    (c : TankChassis.t) :
  TankChassis.enabled_ c = true →
  Position.distanceTo (TankChassis.getPosition Config c).1 target < 1 →
  TankChassis.moveTo Config fuel ticks target reverse c
  = Some (TankChassis.stop (TankChassis.getPosition Config c).2).
Proof.
  intros He Hd. unfold TankChassis.moveTo. rewrite He. simpl.
  destruct ticks; simpl; rewrite He; simpl;
    destruct (TankChassis.getPosition Config c) as [pos c1]; simpl in *;
    by rewrite decide_True.
Qed.

Lemma moveTo_within_tolerance_witness :
  TankChassis.moveTo plain_config 0 [mkTick 0 0 0 false] (field.mkPoint 0 0) true
    (TankChassis.initialize idle_chassis)
  = Some (TankChassis.stop (TankChassis.initialize idle_chassis)).
Proof.
  apply (moveTo_within_tolerance plain_config 0 [mkTick 0 0 0 false]
           (field.mkPoint 0 0) true (TankChassis.initialize idle_chassis)).
  - reflexivity.
  - change (TankChassis.getPosition plain_config (TankChassis.initialize idle_chassis)).1
      with (Position.mk 0 0 0).
    rewrite distance_to_origin. lra.
Defined.

Section tank_chassis_no_tracking.
Import TankChassis.
Variable Config : ChassisConfig.
Hypothesis no_tracking : odomType Config ≠ TRACKING.

Lemma getPosition_no_tracking c :
  (getPosition Config c).2 = c
  ∧ Position.x (getPosition Config c).1 = Position.x (current_pos_ c)
  ∧ Position.y (getPosition Config c).1 = Position.y (current_pos_ c).
Proof.
  unfold getPosition. destruct (odomType Config); try done.
  by destruct (imu_ c).
Qed.

Lemma distanceTo_xy p q target :
  Position.x p = Position.x q → Position.y p = Position.y q →
  Position.distanceTo p target = Position.distanceTo q target.
Proof. unfold Position.distanceTo. by intros -> ->. Qed.

Lemma delay_enabled k c :
  tick_disable k = false → enabled_ (delay k c) = enabled_ c.
Proof. unfold delay. by intros ->. Qed.

Lemma moveTo_loop_far fuel ticks target reverse c :
  enabled_ c = true →
  ¬ Position.distanceTo (current_pos_ c) target < 1 →
  (∀ c', moveTo_loop Config fuel ticks target reverse c = Some c' →
         enabled_ c' = false)
  ∧ (Forall (λ k, tick_disable k = false) ticks →
     moveTo_loop Config fuel ticks target reverse c = None).
Proof.
  revert c. induction ticks as [|k ticks IH]; intros c He Hfar; simpl;
    rewrite He; simpl;
    destruct (getPosition_no_tracking c) as (Hc & Hx & Hy);
    destruct (getPosition Config c) as [current c1]; simpl in Hc, Hx, Hy;
    subst c1; rewrite (distanceTo_xy current (current_pos_ c) target Hx Hy);
    rewrite decide_False by done;
    (destruct (normalize _ _) as [e|]; [|done]); [done|].
  set (c2 := with_base _ c).
  destruct (tick_disable k) eqn:Hk.
  - split.
    + rewrite moveTo_loop_disabled by (by apply delay_disables).
      intros c' [= <-]. by apply delay_disables.
    + intros Hall. apply Forall_cons in Hall as [Hk' _]. congruence.
  - destruct (IH (delay k c2)) as [Hret Hnone].
    + by rewrite delay_enabled.
    + by rewrite delay_current_pos.
    + split; [done|]. intros Hall. apply Forall_cons in Hall as [_ Hall]. auto.
Qed.

End tank_chassis_no_tracking.

Lemma distance_ten_ahead :
  Position.distanceTo (Position.mk 0 0 0) (field.mkPoint 10 0) = 10.
Proof.
  unfold Position.distanceTo. simpl.
  replace ((10 - 0) * (10 - 0) + (0 - 0) * (0 - 0)) with (10 * 10) by ring.
  apply sqrt_square. lra.
Qed.

(** X5: under every odometry strategy but TRACKING nothing moves the
    position estimate while [moveTo] runs, so a call that starts enabled
    with the target outside the tolerance never ends on the tolerance: if
    it returns, the chassis has been disabled, and as long as no delay
    brings the disabling it does not return. *)
Theorem moveTo_without_tracking_ends_only_disabled Config fuel ticks target reverse
    (c : TankChassis.t) :
  odomType Config ≠ TRACKING →
  TankChassis.enabled_ c = true →
  ¬ Position.distanceTo (TankChassis.current_pos_ c) target < 1 →
  (∀ c', TankChassis.moveTo Config fuel ticks target reverse c = Some c' →
         TankChassis.enabled_ c' = false)
  ∧ (Forall (λ k, tick_disable k = false) ticks →
     TankChassis.moveTo Config fuel ticks target reverse c = None).
Proof.
  intros Hcfg He Hfar.
  destruct (moveTo_loop_far Config Hcfg fuel ticks target reverse c He Hfar)
    as [Hret Hnone].
  unfold TankChassis.moveTo. rewrite He. simpl. split.
  - destruct (TankChassis.moveTo_loop _ _ _ _ _ _) as [c1|]; simpl; [|done].
    intros c' [= <-]. exact (Hret c1 eq_refl).
  - intros Hall. by rewrite Hnone.
Qed.

Lemma moveTo_without_tracking_witness :
  TankChassis.moveTo robot_config 5
    [mkTick 0 0 0 false; mkTick 10 0 0 false; mkTick 20 0 0 false]
    (field.mkPoint 10 0) false robot_chassis = None.
Proof.
  apply (moveTo_without_tracking_ends_only_disabled robot_config 5
           [mkTick 0 0 0 false; mkTick 10 0 0 false; mkTick 20 0 0 false]
           (field.mkPoint 10 0) false robot_chassis).
  - discriminate.
  - reflexivity.
  - change (TankChassis.current_pos_ robot_chassis) with (Position.mk 0 0 0).
    rewrite distance_ten_ahead. lra.
  - repeat constructor.
Defined.

(** X6: under the TRACKING strategy with all three sensors set up, each
    call of [getPosition] adds the travel read from the wheels to the
    stored position, along the heading read from the sensor, and stores
    the result: reading twice with the sensors unchanged adds the same
    travel twice.  With a sensor missing the stored position is returned
    and kept. *)
Theorem getPosition_tracking_accumulates Config (c : TankChassis.t) :
  odomType Config = TRACKING →
  (∀ imu left right,
     TankChassis.imu_ c = Some imu →
     TankChassis.left_encoder_ c = Some left →
     TankChassis.right_encoder_ c = Some right →
     let travel :=
       (IZR (get_position left) / 360 * (2.75 * PI)
        + IZR (get_position right) / 360 * (2.75 * PI)) / 2 in
     let heading := get_heading imu * PI / 180 in
     let stored := TankChassis.current_pos_ c in
     let first := TankChassis.getPosition Config c in
     let second := TankChassis.getPosition Config first.2 in
     first.1 = Position.mk (Position.x stored + travel * cos heading)
                 (Position.y stored + travel * sin heading) heading
     ∧ TankChassis.current_pos_ first.2 = first.1
     ∧ second.1 = Position.mk (Position.x stored + travel * cos heading
                                + travel * cos heading)
                    (Position.y stored + travel * sin heading
                     + travel * sin heading) heading
     ∧ TankChassis.motors_ first.2 = TankChassis.motors_ c)
  ∧ (TankChassis.imu_ c = None ∨ TankChassis.left_encoder_ c = None
     ∨ TankChassis.right_encoder_ c = None →
     TankChassis.getPosition Config c = (TankChassis.current_pos_ c, c)).
Proof.
  intros Hcfg. split.
  - intros imu left right Himu Hleft Hright. cbv zeta.
    unfold TankChassis.getPosition. rewrite Hcfg, Himu, Hleft, Hright.
    unfold TankChassis.imu_, TankChassis.current_pos_, TankChassis.with_base,
      M_PI in *.
    simpl. by rewrite Himu, Hleft, Hright.
  - unfold TankChassis.getPosition. rewrite Hcfg.
    intros [-> | [-> | ->]]; [done| |].
    + by destruct (TankChassis.imu_ c).
    + by destruct (TankChassis.imu_ c), (TankChassis.left_encoder_ c).
Qed.

Lemma getPosition_tracking_witness :
  TankChassis.current_pos_ (TankChassis.getPosition tracking_config tracking_chassis).2
  = (TankChassis.getPosition tracking_config tracking_chassis).1
  ∧ Position.x (TankChassis.getPosition tracking_config tracking_chassis).1
    = 0 + (IZR 360 / 360 * (2.75 * PI) + IZR 360 / 360 * (2.75 * PI)) / 2
          * cos (0 * PI / 180).
Proof.
  destruct (getPosition_tracking_accumulates tracking_config tracking_chassis eq_refl)
    as [Hread _].
  destruct (Hread (mkIMU 9 0) (mkRotation 1 360) (mkRotation 2 360)
              eq_refl eq_refl eq_refl) as (Hfirst & Hstored & _).
  split; [exact Hstored|]. by rewrite Hfirst.
Defined.

(** ** Driver control: shaping of the sticks *)

Section stick_shaping.
Import DriverControl.
Local Open Scope R_scope.

Lemma pow_zero e : e ≠ 0 → pow 0 e = 0.
Proof. intros He. unfold pow. by rewrite decide_True, decide_False. Qed.

Lemma pow_one e : pow 1 e = 1.
Proof.
  unfold pow. rewrite decide_False by lra.
  unfold Rpower. by rewrite ln_1, Rmult_0_r, exp_0.
Qed.

Lemma pow_positive b e : 0 < b → 0 < pow b e.
Proof.
  intros Hb. unfold pow. rewrite decide_False by lra. apply exp_pos.
Qed.

Lemma pow_unit_interval b e : 0 < e → 0 <= b <= 1 → 0 <= pow b e <= 1.
Proof.
  intros He [Hb0 Hb1]. destruct (decide (b = 0)) as [->|Hne].
  - rewrite pow_zero by lra. lra.
  - split; [apply Rlt_le, pow_positive; lra|].
    rewrite <- (pow_one e). unfold pow. rewrite !decide_False by lra.
    apply Rle_Rpower_l; lra.
Qed.

Lemma applyCurve_abs dc x :
  Rabs (applyCurve dc x) = Rabs (pow (Rabs x) (curve_factor (config_ dc))).
Proof.
  unfold applyCurve. rewrite Rabs_mult.
  case_decide; [rewrite (Rabs_left (-1)) by lra | rewrite Rabs_R1]; lra.
Qed.

Lemma shaped_stick_bounded dc x :
  0 < curve_factor (config_ dc) → Rabs x <= 1 →
  Rabs (applyCurve dc (applyDeadzone dc x)) <= 1.
Proof.
  intros Hf Hx. rewrite applyCurve_abs.
  assert (0 <= Rabs (applyDeadzone dc x) <= 1) as Hb.
  { split; [apply Rabs_pos|]. unfold applyDeadzone.
    case_decide; [rewrite Rabs_R0; lra | done]. }
  destruct (pow_unit_interval _ _ Hf Hb). rewrite Rabs_pos_eq; lra.
Qed.

Lemma stick_in_range (v : Z) : (-127 ≤ v ≤ 127)%Z → Rabs (IZR v / 127) <= 1.
Proof.
  intros [Hlo Hhi]. apply IZR_le in Hlo, Hhi.
  apply Rabs_le. split; lra.
Qed.

End stick_shaping.

(** [applyDeadzone] returns 0 or its input, never a value of non-zero
    magnitude below the deadzone; it does not rescale (the magnitude never
    grows) and applying it twice is applying it once. *)
Lemma applyDeadzone_cuts (dc : DriverControl.t) (x : R) :
  let y := DriverControl.applyDeadzone dc x in
  (y = 0 ∧ Rabs x < DriverControl.deadzone (DriverControl.config_ dc)
   ∨ y = x ∧ ¬ Rabs x < DriverControl.deadzone (DriverControl.config_ dc))
  ∧ ¬ (0 < Rabs y < DriverControl.deadzone (DriverControl.config_ dc))
  ∧ Rabs y <= Rabs x
  ∧ DriverControl.applyDeadzone dc y = y.
Proof.
  unfold DriverControl.applyDeadzone.
  destruct (decide (Rabs x < _)) as [Hin|Hout]; simpl.
  - split; [by left|]. rewrite Rabs_R0. split; [lra|].
    split; [apply Rabs_pos|]. by case_decide.
  - split; [by right|]. split; [lra|]. split; [lra|].
    by rewrite decide_False.
Qed.

(** X7: with a positive curve factor [applyCurve] is odd, keeps the sign
    of its input, fixes 0, 1 and -1, has magnitude [|x|^factor], and maps
    [[-1, 1]] into [[-1, 1]]. *)
Theorem applyCurve_shape (dc : DriverControl.t) (x : R) :
  0 < DriverControl.curve_factor (DriverControl.config_ dc) →
  DriverControl.applyCurve dc (- x) = - DriverControl.applyCurve dc x
  ∧ (0 < x → 0 < DriverControl.applyCurve dc x)
  ∧ (x < 0 → DriverControl.applyCurve dc x < 0)
  ∧ DriverControl.applyCurve dc 0 = 0
  ∧ DriverControl.applyCurve dc 1 = 1
  ∧ DriverControl.applyCurve dc (-1) = -1
  ∧ Rabs (DriverControl.applyCurve dc x)
    = pow (Rabs x) (DriverControl.curve_factor (DriverControl.config_ dc))
  ∧ (Rabs x <= 1 → Rabs (DriverControl.applyCurve dc x) <= 1).
Proof.
  intros Hf.
  assert (∀ b, 0 <= b →
            0 <= pow b (DriverControl.curve_factor (DriverControl.config_ dc)))
    as Hpos.
  { intros b Hb. destruct (decide (b = 0)) as [->|Hne].
    - rewrite pow_zero by lra. lra.
    - apply Rlt_le, pow_positive. lra. }
  split; [|split; [|split; [|split; [|split; [|split; [|split]]]]]].
  - unfold DriverControl.applyCurve. rewrite Rabs_Ropp.
    destruct (decide (x = 0)) as [->|Hne].
    + rewrite Rabs_R0, pow_zero by lra. repeat case_decide; lra.
    + repeat case_decide; lra.
  - intros Hx. unfold DriverControl.applyCurve.
    rewrite decide_False by lra. rewrite Rabs_pos_eq by lra.
    pose proof (pow_positive x (DriverControl.curve_factor (DriverControl.config_ dc)) Hx).
    lra.
  - intros Hx. unfold DriverControl.applyCurve.
    rewrite decide_True by lra. rewrite Rabs_left by lra.
    assert (0 < - x) as Hx' by lra.
    pose proof (pow_positive _ (DriverControl.curve_factor (DriverControl.config_ dc)) Hx').
    lra.
  - unfold DriverControl.applyCurve. rewrite Rabs_R0, pow_zero by lra. lra.
  - unfold DriverControl.applyCurve. rewrite Rabs_R1, pow_one.
    rewrite decide_False by lra. lra.
  - unfold DriverControl.applyCurve. rewrite (Rabs_left (-1)) by lra.
    replace (- -1) with 1 by lra. rewrite pow_one.
    rewrite decide_True by lra. lra.
  - rewrite applyCurve_abs. apply Rabs_pos_eq, Hpos, Rabs_pos.
  - intros Hx. rewrite applyCurve_abs.
    destruct (pow_unit_interval (Rabs x) _ Hf) as [H0 H1];
      [split; [apply Rabs_pos | done]|].
    rewrite Rabs_pos_eq; lra.
Qed.

Lemma applyCurve_shape_witness :
  DriverControl.applyCurve split_driver (-1) = -1
  ∧ DriverControl.applyCurve split_driver 0 = 0.
Proof.
  assert (0 < DriverControl.curve_factor (DriverControl.config_ split_driver)) as Hf
    by (simpl; lra).
  destruct (applyCurve_shape split_driver 0 Hf) as (_ & _ & _ & H0 & _ & Hm & _).
  split; [exact Hm | exact H0].
Defined.

(** ** Driver control: what reaches the motors *)

Section driver_control_frame.
Import DriverControl.
Local Open Scope R_scope.

Lemma Rabs_bounds x b : Rabs x <= b → - b <= x <= b.
Proof. unfold Rabs. destruct (Rcase_abs x); lra. Qed.

Lemma setMotorVelocity_fields index velocity c :
  Chassis.name_ (Chassis.setMotorVelocity index velocity c) = Chassis.name_ c
  ∧ Chassis.current_pos_ (Chassis.setMotorVelocity index velocity c)
    = Chassis.current_pos_ c
  ∧ Chassis.imu_ (Chassis.setMotorVelocity index velocity c) = Chassis.imu_ c
  ∧ Chassis.enabled_ (Chassis.setMotorVelocity index velocity c)
    = Chassis.enabled_ c.
Proof. unfold Chassis.setMotorVelocity. by case_decide. Qed.

Lemma apply_to_motors_fields left right chassis :
  Chassis.name_ (apply_to_motors left right chassis) = Chassis.name_ chassis
  ∧ Chassis.current_pos_ (apply_to_motors left right chassis)
    = Chassis.current_pos_ chassis
  ∧ Chassis.imu_ (apply_to_motors left right chassis) = Chassis.imu_ chassis
  ∧ Chassis.enabled_ (apply_to_motors left right chassis)
    = Chassis.enabled_ chassis.
Proof.
  unfold apply_to_motors.
  generalize (seq 0 (Chassis.getMotorCount chassis)). intros l.
  revert chassis. induction l as [|i l IH]; intros chassis; [done|].
  cbn [foldl].
  destruct (IH (Chassis.setMotorVelocity (Z.of_nat i)
                  ((if bool_decide (i < Chassis.getMotorCount chassis / 2)%nat
                    then left else right) * 200) chassis))
    as (H1 & H2 & H3 & H4).
  destruct (setMotorVelocity_fields (Z.of_nat i)
              ((if bool_decide (i < Chassis.getMotorCount chassis / 2)%nat
                then left else right) * 200) chassis) as (G1 & G2 & G3 & G4).
  repeat split; etrans; eauto.
Qed.

Lemma apply_to_motors_same_motors left right chassis :
  motor_port <$> Chassis.motors_ (apply_to_motors left right chassis)
  = motor_port <$> Chassis.motors_ chassis
  ∧ motor_reversed <$> Chassis.motors_ (apply_to_motors left right chassis)
    = motor_reversed <$> Chassis.motors_ chassis.
Proof.
  split; apply list_eq; intros j;
    rewrite !list_lookup_fmap, apply_to_motors_lookup;
    by destruct (Chassis.motors_ chassis !! j).
Qed.

Lemma processArcadeDrive_enabled split dc chassis :
  enabled_ dc = true →
  processArcadeDrive split dc chassis
  = let stick a := IZR (get_analog (controller_ dc) a) / 127 in
    let drive := applyCurve dc (applyDeadzone dc (stick ANALOG_LEFT_Y)) in
    let turn :=
      applyCurve dc
        (applyDeadzone dc (stick (if split then ANALOG_RIGHT_X else ANALOG_LEFT_X)))
      * turn_scale (config_ dc) in
    apply_to_motors (arcade_mix drive turn).1 (arcade_mix drive turn).2 chassis.
Proof. unfold processArcadeDrive. intros ->. by destruct split. Qed.

End driver_control_frame.

(** X8: in tank mode, while the driver control is enabled, every motor of
    the left half is commanded the shaped left stick times 200 and every
    motor of the right half the shaped right stick times 200; with a
    positive curve factor and sticks within -127..127 every command is
    within -200..200. *)
Theorem processTankDrive_sides (dc : DriverControl.t) (chassis : Chassis.t) :
  DriverControl.enabled_ dc = true →
  let stick a := IZR (get_analog (DriverControl.controller_ dc) a) / 127 in
  let left :=
    DriverControl.applyCurve dc (DriverControl.applyDeadzone dc (stick ANALOG_LEFT_Y)) in
  let right :=
    DriverControl.applyCurve dc (DriverControl.applyDeadzone dc (stick ANALOG_RIGHT_Y)) in
  let count := length (Chassis.motors_ chassis) in
  (∀ i motor, Chassis.motors_ chassis !! i = Some motor →
     Chassis.motors_ (DriverControl.processTankDrive dc chassis) !! i
     = Some (move_velocity ((if decide (i < count / 2)%nat then left else right) * 200)
               motor))
  ∧ length (Chassis.motors_ (DriverControl.processTankDrive dc chassis)) = count
  ∧ (0 < DriverControl.curve_factor (DriverControl.config_ dc) →
     (-127 ≤ get_analog (DriverControl.controller_ dc) ANALOG_LEFT_Y ≤ 127)%Z →
     (-127 ≤ get_analog (DriverControl.controller_ dc) ANALOG_RIGHT_Y ≤ 127)%Z →
     Forall (λ m, -200 <= motor_velocity m <= 200)
       (Chassis.motors_ (DriverControl.processTankDrive dc chassis))).
Proof.
  intros Hen stick left right count.
  assert (DriverControl.processTankDrive dc chassis
          = DriverControl.apply_to_motors left right chassis) as ->.
  { unfold DriverControl.processTankDrive. by rewrite Hen. }
  split; [|split].
  - intros i motor Hi. rewrite apply_to_motors_lookup, Hi.
    unfold side_velocity. fold count.
    by destruct (decide (i < count / 2)%nat);
      [rewrite bool_decide_eq_true_2 by done | rewrite bool_decide_eq_false_2 by done].
  - apply apply_to_motors_length.
  - intros Hf Hl Hr. apply Forall_lookup. intros i m Hm.
    rewrite apply_to_motors_lookup in Hm.
    destruct (Chassis.motors_ chassis !! i) as [m0|]; [|done].
    simpl in Hm. injection Hm as <-. simpl. unfold side_velocity.
    pose proof (shaped_stick_bounded dc _ Hf (stick_in_range _ Hl)) as Bl.
    pose proof (shaped_stick_bounded dc _ Hf (stick_in_range _ Hr)) as Br.
    apply Rabs_bounds in Bl, Br.
    destruct (bool_decide _); unfold left, right, stick; lra.
Qed.

Lemma processTankDrive_sides_witness :
  length (Chassis.motors_ (DriverControl.processTankDrive split_driver four_motor_chassis))
  = 4%nat
  ∧ Forall (λ m, -200 <= motor_velocity m <= 200)
      (Chassis.motors_ (DriverControl.processTankDrive split_driver four_motor_chassis)).
Proof.
  destruct (processTankDrive_sides split_driver four_motor_chassis eq_refl)
    as (_ & Hlen & Hbound).
  split; [exact Hlen|]. apply Hbound; simpl; [lra | lia | lia].
Defined.

(** X9: driving straight in arcade or split mode: while the driver control
    is enabled, with a positive curve factor, the turn stick inside the
    deadzone and the drive stick within -127..127, every motor of both
    halves is commanded the same velocity, the shaped drive stick times
    200. *)
Theorem processArcadeDrive_straight (split : bool) (dc : DriverControl.t)
    (chassis : Chassis.t) :
  DriverControl.enabled_ dc = true →
  0 < DriverControl.curve_factor (DriverControl.config_ dc) →
  Rabs (IZR (get_analog (DriverControl.controller_ dc)
               (if split then ANALOG_RIGHT_X else ANALOG_LEFT_X)) / 127)
  < DriverControl.deadzone (DriverControl.config_ dc) →
  (-127 ≤ get_analog (DriverControl.controller_ dc) ANALOG_LEFT_Y ≤ 127)%Z →
  ∀ i motor, Chassis.motors_ chassis !! i = Some motor →
    Chassis.motors_ (DriverControl.processArcadeDrive split dc chassis) !! i
    = Some (move_velocity
              (DriverControl.applyCurve dc
                 (DriverControl.applyDeadzone dc
                    (IZR (get_analog (DriverControl.controller_ dc) ANALOG_LEFT_Y) / 127))
               * 200) motor).
Proof.
  intros Hen Hf Hturn Hdrive i motor Hi.
  rewrite processArcadeDrive_enabled by done. cbv beta zeta.
  set (drive := DriverControl.applyCurve dc (DriverControl.applyDeadzone dc
                  (IZR (get_analog (DriverControl.controller_ dc) ANALOG_LEFT_Y) / 127))).
  assert (DriverControl.applyCurve dc
            (DriverControl.applyDeadzone dc
               (IZR (get_analog (DriverControl.controller_ dc)
                       (if split then ANALOG_RIGHT_X else ANALOG_LEFT_X)) / 127))
          = 0) as ->.
  { unfold DriverControl.applyDeadzone. rewrite decide_True by done.
    unfold DriverControl.applyCurve. rewrite Rabs_R0, pow_zero by lra. lra. }
  assert (Rabs drive <= 1) as Hb
    by (apply shaped_stick_bounded; [done | by apply stick_in_range]).
  assert (DriverControl.arcade_mix drive (0 * DriverControl.turn_scale
                                               (DriverControl.config_ dc))
          = (drive, drive)) as ->.
  { unfold DriverControl.arcade_mix. rewrite Rmult_0_l, Rplus_0_r, Rminus_0_r.
    rewrite Rmax_left by lra. by rewrite decide_False by lra. }
  rewrite apply_to_motors_lookup, Hi. simpl. unfold side_velocity.
  by destruct (bool_decide _).
Qed.

Lemma processArcadeDrive_straight_witness :
  motor_velocity <$>
    Chassis.motors_
      (DriverControl.processArcadeDrive false split_driver four_motor_chassis) !! 3%nat
  = Some (DriverControl.applyCurve split_driver
            (DriverControl.applyDeadzone split_driver (IZR 127 / 127)) * 200).
Proof.
  rewrite (processArcadeDrive_straight false split_driver four_motor_chassis
             eq_refl) with (motor := mkMotor 4 true 0).
  - reflexivity.
  - simpl. lra.
  - simpl. replace (0 / 127) with 0 by lra. rewrite Rabs_R0. lra.
  - simpl. lia.
  - reflexivity.
Defined.

(** X10: an update of the driver control writes velocities and nothing
    else: the motors stay the same ones (ports and polarities, in order),
    and the enabled flag, the position estimate and the sensor of the
    chassis are untouched, in every drive mode; a disabled driver control
    leaves the chassis as it is.  [disable] stops every motor. *)
Theorem DriverControl_update_frame (dc : DriverControl.t) (chassis : Chassis.t) :
  motor_port <$> Chassis.motors_ (DriverControl.update dc chassis)
  = motor_port <$> Chassis.motors_ chassis
  ∧ motor_reversed <$> Chassis.motors_ (DriverControl.update dc chassis)
    = motor_reversed <$> Chassis.motors_ chassis
  ∧ Chassis.enabled_ (DriverControl.update dc chassis) = Chassis.enabled_ chassis
  ∧ Chassis.current_pos_ (DriverControl.update dc chassis)
    = Chassis.current_pos_ chassis
  ∧ Chassis.imu_ (DriverControl.update dc chassis) = Chassis.imu_ chassis
  ∧ (DriverControl.enabled_ dc = false → DriverControl.update dc chassis = chassis)
  ∧ DriverControl.enabled_ (DriverControl.disable dc chassis).1 = false
  ∧ Forall (λ m, motor_velocity m = 0)
      (Chassis.motors_ (DriverControl.disable dc chassis).2).
Proof.
  assert (∀ l r,
    motor_port <$> Chassis.motors_ (DriverControl.apply_to_motors l r chassis)
    = motor_port <$> Chassis.motors_ chassis
    ∧ motor_reversed <$> Chassis.motors_ (DriverControl.apply_to_motors l r chassis)
      = motor_reversed <$> Chassis.motors_ chassis
    ∧ Chassis.enabled_ (DriverControl.apply_to_motors l r chassis)
      = Chassis.enabled_ chassis
    ∧ Chassis.current_pos_ (DriverControl.apply_to_motors l r chassis)
      = Chassis.current_pos_ chassis
    ∧ Chassis.imu_ (DriverControl.apply_to_motors l r chassis)
      = Chassis.imu_ chassis) as Happly.
  { intros l r. destruct (apply_to_motors_same_motors l r chassis) as [Hp Hr].
    destruct (apply_to_motors_fields l r chassis) as (_ & Hpos & Himu & Hen).
    done. }
  assert (Forall (λ m, motor_velocity m = 0)
            (Chassis.motors_ (DriverControl.disable dc chassis).2)) as Hstop.
  { simpl. unfold Chassis.stop. simpl. by apply Forall_fmap, Forall_true. }
  destruct (DriverControl.enabled_ dc) eqn:Hen.
  2: { unfold DriverControl.update. rewrite Hen. simpl. repeat split; done. }
  assert (∃ l r, DriverControl.update dc chassis
                 = DriverControl.apply_to_motors l r chassis) as (l & r & ->).
  { unfold DriverControl.update. rewrite Hen. simpl.
    destruct (DriverControl.mode (DriverControl.config_ dc)).
    - rewrite processArcadeDrive_enabled by done. eauto.
    - rewrite processArcadeDrive_enabled by done. eauto.
    - unfold DriverControl.processTankDrive. rewrite Hen. simpl. eauto. }
  destruct (Happly l r) as (H1 & H2 & H3 & H4 & H5).
  repeat split; done.
Qed.

Lemma DriverControl_update_frame_witness :
  DriverControl.update disabled_driver four_motor_chassis = four_motor_chassis.
Proof.
  destruct (DriverControl_update_frame disabled_driver four_motor_chassis)
    as (_ & _ & _ & _ & _ & Hoff & _).
  by apply Hoff.
Defined.

(** ** The input mapper: the kinds of bindings *)

Section input_mapper_bindings.
Import InputMapper.
Context {World : Type}.
Implicit Types (m : InputMapper.t World).

Lemma record_new_input_spec now btns history controller :
  let first := list_find (λ b, pending_press controller b = true) btns in
  let result := record_new_input now btns history controller in
  result.1 = history ++ match first with
                        | Some (_, b) => [(now, pretty (digital_code b))]
                        | None => []
                        end
  ∧ get_analog result.2 = get_analog controller
  ∧ get_digital result.2 = get_digital controller
  ∧ ∀ b, pending_press result.2 b
         = pending_press controller b
           && negb (bool_decide (snd <$> first = Some b)).
Proof.
  revert controller. induction btns as [|btn btns IH]; intros controller.
  - simpl. rewrite app_nil_r. repeat split; try done.
    intros b. by rewrite andb_true_r.
  - cbn [record_new_input list_find]. unfold get_digital_new_press. cbn [fst snd].
    destruct (pending_press controller btn) eqn:Hp.
    + rewrite decide_True by done. simpl. repeat split; try done.
      intros b. destruct (decide (b = btn)) as [->|Hne].
      * rewrite Hp. by rewrite (bool_decide_eq_true_2 (Some btn = Some btn)).
      * rewrite (bool_decide_eq_false_2 (Some btn = Some b)) by congruence.
        by rewrite andb_true_r.
    + rewrite decide_False by done.
      set (c' := mkController _ _ _).
      destruct (IH c') as (Hh & Ha & Hd & Hpend).
      assert (∀ b, pending_press c' b = pending_press controller b) as Hsame.
      { intros b. simpl. by destruct (decide (b = btn)) as [->|]. }
      assert (list_find (λ b, pending_press c' b = true) btns
              = list_find (λ b, pending_press controller b = true) btns) as Hfind.
      { apply list_find_ext. intros b. by rewrite Hsame. }
      cbv zeta in Hh, Hpend. rewrite Hfind in Hh, Hpend.
      cbv zeta. split; [|split; [done|split; [done|]]].
      * rewrite Hh. by destruct (list_find _ btns) as [[? ?]|].
      * intros b. rewrite Hpend, Hsame.
        by destruct (list_find _ btns) as [[? ?]|].
Qed.

End input_mapper_bindings.

(** X11: a BUTTON binding fires on the pending press of its first button
    and consumes it: the answer is whether that button was pressed since it
    was last polled, no other button is polled, and checking again right
    away answers false.  With no button listed it never fires and polls
    nothing. *)
Theorem checkBinding_button_edge {World : Type} (now : Z) (binding : InputBinding)
    (m : InputMapper.t World) (controller : Controller) :
  type binding = BUTTON →
  let result := InputMapper.checkBinding now binding m controller in
  result.2.1 = m
  ∧ get_digital result.2.2 = get_digital controller
  ∧ match buttons binding with
    | [] => result.1 = false ∧ result.2.2 = controller
    | btn :: _ =>
        result.1 = pending_press controller btn
        ∧ pending_press result.2.2 btn = false
        ∧ (∀ b, b ≠ btn → pending_press result.2.2 b = pending_press controller b)
        ∧ (InputMapper.checkBinding now binding result.2.1 result.2.2).1 = false
    end.
Proof.
  intros Hty. unfold InputMapper.checkBinding. rewrite Hty.
  destruct (buttons binding) as [|btn rest]; simpl; [done|].
  rewrite decide_True by done. repeat split; try done.
  intros b Hb. by rewrite decide_False.
Qed.

Lemma checkBinding_button_edge_witness :
  (InputMapper.checkBinding 0 R1_button two_presses R1_L2_pressed).1 = true
  ∧ (InputMapper.checkBinding 0 R1_button two_presses
       (InputMapper.checkBinding 0 R1_button two_presses R1_L2_pressed).2.2).1 = false.
Proof.
  destruct (checkBinding_button_edge 0 R1_button two_presses R1_L2_pressed eq_refl)
    as (Hm & _ & Hfired & _ & _ & Hagain).
  split; [exact Hfired|]. rewrite Hm in Hagain. exact Hagain.
Defined.

(** X12: the BUTTON_COMBO and ANALOG bindings only read: checking one
    changes neither the mapper nor the controller, so it answers the same
    on every check while the input holds.  A BUTTON_COMBO fires exactly
    when every listed button is held, hence always when none is listed; an
    ANALOG_ABOVE and an ANALOG_BELOW binding with the same channel and
    threshold never fire together. *)
Theorem checkBinding_level_triggered {World : Type} (now : Z) (binding : InputBinding)
    (m : InputMapper.t World) (controller : Controller) :
  type binding ∈ [BUTTON_COMBO; ANALOG_ABOVE; ANALOG_BELOW] →
  let result := InputMapper.checkBinding now binding m controller in
  result.2 = (m, controller)
  ∧ (type binding = BUTTON_COMBO →
       (result.1 = true ↔ ∀ btn, btn ∈ buttons binding → get_digital controller btn = true)
       ∧ (buttons binding = [] → result.1 = true))
  ∧ (∀ other : InputBinding,
       type binding = ANALOG_ABOVE → type other = ANALOG_BELOW →
       analog other = analog binding → threshold other = threshold binding →
       ¬ (result.1 = true
          ∧ (InputMapper.checkBinding now other m controller).1 = true)).
Proof.
  intros Hty result. subst result. unfold InputMapper.checkBinding.
  rewrite !elem_of_cons, elem_of_nil in Hty.
  destruct Hty as [Hkind | [Hkind | [Hkind | []]]]; rewrite Hkind;
    (split; [done|]); split; try done.
  - intros _. simpl. split; [|by intros ->].
    rewrite forallb_forall.
    split; intros H btn Hbtn; apply H; by apply list_elem_of_In.
  - intros other _ Hother Hanalog Hthreshold. rewrite Hother. simpl.
    rewrite Hanalog, Hthreshold.
    intros [Ha Hb]. apply bool_decide_eq_true in Ha, Hb. lra.
Qed.

Lemma checkBinding_level_triggered_witness :
  InputMapper.checkBinding 0
    (mkInputBinding BUTTON_COMBO [] ANALOG_LEFT_Y 0 500) two_presses idle_controller
  = (true, (two_presses, idle_controller)).
Proof.
  destruct (checkBinding_level_triggered 0
              (mkInputBinding BUTTON_COMBO [] ANALOG_LEFT_Y 0 500)
              two_presses idle_controller) as (Hsame & Hcombo & _).
  { apply elem_of_cons. by left. }
  destruct (Hcombo eq_refl) as [_ Hempty].
  specialize (Hempty eq_refl).
  destruct (InputMapper.checkBinding _ _ _ _) as [fired state].
  simpl in *. by subst.
Defined.

(** X13: a SEQUENCE binding that does not match answers false, drops the
    presses that are older than its window and records at most one new
    press, stamped with the time of the check: that of the first listed
    button, in the order of the list, that has a pending press.  That press
    is consumed; every other pending press stays pending. *)
Theorem checkBinding_sequence_records {World : Type} (now : Z)
    (binding : InputBinding) (m : InputMapper.t World) (controller : Controller) :
  type binding = SEQUENCE →
  presses_in_window now (sequence_window binding) (InputMapper.input_history_ m)
  ≠ length (buttons binding) →
  let result := InputMapper.checkBinding now binding m controller in
  let kept :=
    filter (λ entry, (now - entry.1 ≤ sequence_window binding)%Z)
           (InputMapper.input_history_ m) in
  let first :=
    list_find (λ b, pending_press controller b = true) (buttons binding) in
  result.1 = false
  ∧ InputMapper.input_history_ result.2.1
    = kept ++ match first with
              | Some (_, b) => [(now, pretty (digital_code b))]
              | None => []
              end
  ∧ (length (InputMapper.input_history_ result.2.1)
     ≤ S (length (InputMapper.input_history_ m)))%nat
  ∧ (∀ b, pending_press result.2.2 b
          = pending_press controller b
            && negb (bool_decide (snd <$> first = Some b)))
  ∧ get_digital result.2.2 = get_digital controller.
Proof.
  intros Hty Hcount result kept first.
  assert (filter (λ entry : Z * string, ¬ (now - entry.1 > sequence_window binding)%Z)
            (InputMapper.input_history_ m) = kept) as Hkept.
  { unfold kept. apply list_filter_iff. intros entry. lia. }
  subst result. unfold InputMapper.checkBinding. rewrite Hty.
  rewrite sequence_matches_always, andb_true_r, pruned_history_length.
  rewrite bool_decide_eq_false_2 by done. rewrite Hkept.
  destruct (record_new_input_spec now (buttons binding) kept controller)
    as (Hh & _ & Hd & Hp).
  cbv zeta in Hh, Hp. fold first in Hh, Hp.
  destruct (InputMapper.record_new_input _ _ _ _) as [history' controller'].
  simpl in *. subst history'. repeat split; try done.
  rewrite length_app.
  assert (length kept ≤ length (InputMapper.input_history_ m))%nat
    by apply length_filter.
  destruct first as [[? ?]|]; simpl; lia.
Qed.

Lemma checkBinding_sequence_records_witness :
  InputMapper.input_history_
    (InputMapper.checkBinding 1000
       (mkInputBinding SEQUENCE [DIGITAL_L1; DIGITAL_L2; DIGITAL_R1] ANALOG_LEFT_Y 0 500)
       two_presses R1_L2_pressed).2.1
  = [(900, "8"); (950, "8"); (1000, "7")]%Z
  ∧ pending_press
      (InputMapper.checkBinding 1000
         (mkInputBinding SEQUENCE [DIGITAL_L1; DIGITAL_L2; DIGITAL_R1] ANALOG_LEFT_Y 0 500)
         two_presses R1_L2_pressed).2.2 DIGITAL_R1 = true.
Proof.
  destruct (checkBinding_sequence_records 1000
              (mkInputBinding SEQUENCE [DIGITAL_L1; DIGITAL_L2; DIGITAL_R1]
                 ANALOG_LEFT_Y 0 500) two_presses R1_L2_pressed eq_refl)
    as (_ & Hhistory & _ & Hpending & _).
  { vm_compute. lia. }
  split; [rewrite Hhistory; reflexivity | rewrite Hpending; reflexivity].
Defined.

(** ** The input mapper: the table of bindings and the update *)

(** X14: a binding added under a name is found under that name with its
    action, in place of what the name was bound to, and bindings under
    other names are untouched; removing the name undoes the addition, and
    gives back a mapper in which the name was not bound.  Both operations
    keep the bindings and the actions under the same names. *)
Theorem addBinding_removeBinding {World : Type} (name : string)
    (binding : InputBinding) (action : World → World) (m : InputMapper.t World) :
  InputMapper.bindings_ (InputMapper.addBinding name binding action m) !! name
  = Some binding
  ∧ InputMapper.actions_ (InputMapper.addBinding name binding action m) !! name
    = Some action
  ∧ (∀ other, other ≠ name →
       InputMapper.bindings_ (InputMapper.addBinding name binding action m) !! other
       = InputMapper.bindings_ m !! other
       ∧ InputMapper.actions_ (InputMapper.addBinding name binding action m) !! other
         = InputMapper.actions_ m !! other)
  ∧ InputMapper.removeBinding name (InputMapper.addBinding name binding action m)
    = InputMapper.removeBinding name m
  ∧ (InputMapper.bindings_ m !! name = None →
     InputMapper.actions_ m !! name = None →
     InputMapper.removeBinding name (InputMapper.addBinding name binding action m) = m
     ∧ InputMapper.removeBinding name m = m)
  ∧ (dom (InputMapper.bindings_ m) = dom (InputMapper.actions_ m) →
     dom (InputMapper.bindings_ (InputMapper.addBinding name binding action m))
     = dom (InputMapper.actions_ (InputMapper.addBinding name binding action m))
     ∧ dom (InputMapper.bindings_ (InputMapper.removeBinding name m))
       = dom (InputMapper.actions_ (InputMapper.removeBinding name m))).
Proof.
  unfold InputMapper.addBinding, InputMapper.removeBinding. simpl.
  split; [apply lookup_insert_eq|]. split; [apply lookup_insert_eq|].
  split; [intros other Hne; by rewrite !lookup_insert_ne|].
  rewrite !delete_insert_eq. split; [done|]. split.
  - intros Hb Ha. rewrite !delete_id by done. by destruct m.
  - intros Hdom. by rewrite !dom_insert_L, !dom_delete_L, Hdom.
Qed.

Lemma addBinding_removeBinding_witness :
  InputMapper.removeBinding "toggle_clamp"
    (InputMapper.addBinding "toggle_clamp" R1_button (λ w : unit, w) two_presses)
  = two_presses.
Proof.
  destruct (addBinding_removeBinding "toggle_clamp" R1_button (λ w : unit, w)
              two_presses) as (_ & _ & _ & _ & Hfresh & _).
  by destruct (Hfresh eq_refl eq_refl).
Defined.

Section input_mapper_update.
Import InputMapper.
Context {World : Type}.
Implicit Types (m : InputMapper.t World).

Lemma check_frame_refl m controller : check_frame m controller m controller.
Proof. by repeat split. Qed.

Lemma check_frame_trans m1 c1 m2 c2 m3 c3 :
  check_frame m1 c1 m2 c2 → check_frame m2 c2 m3 c3 → check_frame m1 c1 m3 c3.
Proof.
  intros (A1 & A2 & A3 & A4 & A5 & A6 & A7) (B1 & B2 & B3 & B4 & B5 & B6 & B7).
  repeat split; try congruence. auto.
Qed.

Lemma checkBinding_frame now binding m controller :
  check_frame m controller (checkBinding now binding m controller).2.1
    (checkBinding now binding m controller).2.2.
Proof.
  unfold checkBinding. destruct (type binding); try apply check_frame_refl.
  - destruct (buttons binding) as [|btn rest]; [apply check_frame_refl|].
    unfold get_digital_new_press. cbn [fst snd].
    repeat split; try done. cbn [pending_press]. intros b. by case_decide.
  - destruct (_ && _); [by repeat split|].
    pose proof (record_new_input_spec now (buttons binding)
      (filter (λ entry : Z * string, ¬ (now - entry.1 > sequence_window binding)%Z)
         (input_history_ m)) controller) as (_ & Ha & Hd & Hp).
    cbv zeta in Ha, Hd, Hp.
    destruct (record_new_input _ _ _ _) as [history' controller']. simpl in *.
    repeat split; try done. intros b Hb. rewrite Hp in Hb.
    by destruct (pending_press controller b).
Qed.

Lemma update_fold_frame clock (l : list (string * InputBinding)) m controller w :
  let result :=
    foldl (λ '(m, controller, w) '(name, binding),
             let '(fired, (m, controller)) :=
               checkBinding (clock name) binding m controller in
             if fired then
               match actions_ m !! name with
               | Some action => (m, controller, action w)
               | None => (m, controller, w)
               end
             else (m, controller, w))
          (m, controller, w) l in
  check_frame m controller result.1.1 result.1.2.
Proof.
  revert m controller w. induction l as [|[name binding] l IH];
    intros m controller w; [apply check_frame_refl|].
  cbn [foldl].
  pose proof (checkBinding_frame (clock name) binding m controller) as Hstep.
  destruct (checkBinding (clock name) binding m controller) as [fired [m1 c1]].
  simpl in Hstep.
  destruct fired; [destruct (actions_ m1 !! name)|];
    (eapply check_frame_trans; [exact Hstep | apply IH]).
Qed.

End input_mapper_update.

(** X15: an update of the input mapper changes neither its bindings, its
    actions nor its enabled flag; of the controller it only consumes
    pending presses (no press appears, sticks and held buttons are as they
    were).  A disabled mapper, and one without bindings, does nothing at
    all: no action runs. *)
Theorem InputMapper_update_frame {World : Type} (clock : string → Z)
    (m : InputMapper.t World) (controller : Controller) (w : World) :
  let result := InputMapper.update clock m controller w in
  InputMapper.bindings_ result.1.1 = InputMapper.bindings_ m
  ∧ InputMapper.actions_ result.1.1 = InputMapper.actions_ m
  ∧ InputMapper.enabled_ result.1.1 = InputMapper.enabled_ m
  ∧ get_analog result.1.2 = get_analog controller
  ∧ get_digital result.1.2 = get_digital controller
  ∧ (∀ b, pending_press result.1.2 b = true → pending_press controller b = true)
  ∧ (InputMapper.enabled_ m = false → result = (m, controller, w))
  ∧ (InputMapper.bindings_ m = ∅ → result = (m, controller, w)).
Proof.
  cbv zeta. unfold InputMapper.update.
  destruct (InputMapper.enabled_ m) eqn:Hen; simpl; [|by repeat split].
  pose proof (update_fold_frame clock (map_to_list (InputMapper.bindings_ m))
                m controller w) as (_ & Hb & Ha & He & Han & Hd & Hp).
  rewrite Hen in He.
  repeat split; try done.
  intros Hempty. by rewrite Hempty, map_to_list_empty.
Qed.

Lemma InputMapper_update_frame_witness :
  InputMapper.update (λ _, 0%Z) (InputMapper.new (World := unit) "input")
    R1_L2_pressed tt
  = (InputMapper.new "input", R1_L2_pressed, tt).
Proof.
  destruct (InputMapper_update_frame (λ _, 0%Z) (InputMapper.new (World := unit) "input")
              R1_L2_pressed tt) as (_ & _ & _ & _ & _ & _ & Hoff & _).
  by apply Hoff.
Defined.

(** ** The macro system: what holds of every state it reaches *)

Section macro_system_invariant.
Import MacroSystem.
Context {World M : Type} `{!Macro World M}.
Implicit Types (ms : MacroSystem.t M).

Lemma update_idle ms w :
  enabled_ ms = false ∨ active_macro_ ms = "" → update ms w = (ms, w).
Proof.
  unfold update. intros [-> | ->]; [done|].
  by rewrite bool_decide_eq_true_2, orb_true_r.
Qed.

Lemma update_active ms w macro :
  enabled_ ms = true → active_macro_ ms ≠ "" →
  macros_ ms !! active_macro_ ms = Some macro →
  update ms w
  = (mk (name_ ms) (<[active_macro_ ms := (execute macro w).1]> (macros_ ms))
        (if isComplete (execute macro w).1 then "" else active_macro_ ms) true,
     (execute macro w).2).
Proof.
  intros Hen Hact Hm. unfold update.
  rewrite Hen, bool_decide_eq_false_2 by done. simpl. rewrite Hm.
  destruct (execute macro w) as [macro' w']. simpl.
  by destruct (isComplete macro').
Qed.

Lemma update_ok ms w : macro_system_ok ms → macro_system_ok (update ms w).1.
Proof.
  intros Hok. pose proof Hok as [Hoff Hknown].
  destruct (enabled_ ms) eqn:Hen; [|rewrite update_idle by auto; exact Hok].
  destruct (decide (active_macro_ ms = "")) as [Hidle|Hact];
    [rewrite update_idle by auto; exact Hok|].
  destruct (Hknown Hact) as [macro Hm].
  rewrite (update_active ms w macro) by done. simpl.
  split; [done|]. simpl. destruct (isComplete _); simpl; [done|].
  intros _. rewrite lookup_insert_eq. eauto.
Qed.

Lemma startMacro_ok name ms :
  macro_system_ok ms → macro_system_ok (startMacro name ms).2.
Proof.
  intros Hok. unfold startMacro.
  destruct (enabled_ ms) eqn:Hen; simpl; [|done].
  destruct (macros_ ms !! name) as [macro|]; [|done].
  case_bool_decide; [|done]. simpl. split; [done|].
  intros _. simpl. rewrite lookup_insert_eq. eauto.
Qed.

End macro_system_invariant.

(** X16: every state that a macro system reaches from its construction
    through its operations is idle when it is disabled and, when a macro is
    active, has it in the catalog; so whenever [isMacroActive] answers
    true, an update does execute the active macro. *)
Theorem macro_system_keeps_invariant {World M : Type} `{!Macro World M}
    (ms : MacroSystem.t M) :
  (∀ name, macro_system_ok (MacroSystem.new (M := M) name))
  ∧ (macro_system_ok ms →
     macro_system_ok (MacroSystem.initialize ms)
     ∧ macro_system_ok (MacroSystem.stopMacro ms)
     ∧ macro_system_ok (MacroSystem.disable ms)
     ∧ (∀ name macro, macro_system_ok (MacroSystem.registerMacro name macro ms))
     ∧ (∀ name, macro_system_ok (MacroSystem.startMacro name ms).2)
     ∧ (∀ w : World, macro_system_ok (MacroSystem.update ms w).1)
     ∧ (∀ w : World, MacroSystem.isMacroActive ms = true →
          ∃ macro,
            MacroSystem.macros_ ms !! MacroSystem.active_macro_ ms = Some macro
            ∧ (MacroSystem.update ms w).2 = (execute macro w).2
            ∧ MacroSystem.macros_ (MacroSystem.update ms w).1
                !! MacroSystem.active_macro_ ms
              = Some (execute macro w).1)).
Proof.
  split; [by split|]. intros Hok. pose proof Hok as [Hoff Hknown].
  split; [by split|]. split; [by split|]. split; [by split|].
  split.
  { intros name macro. split; [done|]. simpl. intros Hact.
    destruct (Hknown Hact) as [macro' Hm].
    destruct (decide (name = MacroSystem.active_macro_ ms)) as [->|Hne].
    - rewrite lookup_insert_eq. eauto.
    - rewrite lookup_insert_ne by done. eauto. }
  split; [intros name; by apply startMacro_ok|].
  split; [intros w; by apply update_ok|].
  intros w Hactive. unfold MacroSystem.isMacroActive in Hactive.
  apply negb_true_iff, bool_decide_eq_false in Hactive.
  destruct (Hknown Hactive) as [macro Hm]. exists macro.
  assert (MacroSystem.enabled_ ms = true) as Hen.
  { destruct (MacroSystem.enabled_ ms); [done|]. by destruct Hactive; apply Hoff. }
  rewrite (update_active ms w macro) by done. simpl.
  by rewrite lookup_insert_eq.
Qed.

Lemma macro_system_keeps_invariant_witness :
  macro_system_ok (MacroSystem.startMacro "A" two_macros).2
  ∧ macro_system_ok
      (MacroSystem.update (MacroSystem.startMacro "A" two_macros).2 tt).1.
Proof.
  assert (macro_system_ok two_macros) as Hok.
  { split; [done|]. intros H. by destruct H. }
  destruct (macro_system_keeps_invariant (World := unit) two_macros)
    as (_ & Hsteps).
  destruct (Hsteps Hok) as (_ & _ & _ & _ & Hstart & _).
  split; [apply Hstart|].
  destruct (macro_system_keeps_invariant (World := unit)
              (MacroSystem.startMacro "A" two_macros).2) as (_ & Hnext).
  destruct (Hnext (Hstart "A")) as (_ & _ & _ & _ & _ & Hupdate & _).
  apply Hupdate.
Defined.



(** [disable] and [stopMacro] clear the active macro and leave the
    catalog as it is: the macro that was running is neither reset nor
    executed.  On the disabled system nothing starts and updates do
    nothing. *)
Lemma MacroSystem_disable_clears {World M : Type} `{!Macro World M}
    (ms : MacroSystem.t M) :
  MacroSystem.active_macro_ (MacroSystem.disable ms) = ""
  ∧ MacroSystem.enabled_ (MacroSystem.disable ms) = false
  ∧ MacroSystem.macros_ (MacroSystem.disable ms) = MacroSystem.macros_ ms
  ∧ (∀ name, MacroSystem.startMacro name (MacroSystem.disable ms)
             = (false, MacroSystem.disable ms))
  ∧ (∀ w : World, MacroSystem.update (MacroSystem.disable ms) w
                  = (MacroSystem.disable ms, w))
  ∧ MacroSystem.active_macro_ (MacroSystem.stopMacro ms) = ""
  ∧ MacroSystem.macros_ (MacroSystem.stopMacro ms) = MacroSystem.macros_ ms
  ∧ MacroSystem.enabled_ (MacroSystem.stopMacro ms) = MacroSystem.enabled_ ms
  ∧ (∀ w : World, MacroSystem.update (MacroSystem.stopMacro ms) w
                  = (MacroSystem.stopMacro ms, w)).
Proof.
  repeat split; try done; intros w; apply update_idle; by right.
Qed.

(** X18: the empty name is a name like another for the catalog, but it is
    also what marks the system idle: starting a macro registered under the
    empty name answers true and resets the macro, yet the system stays
    idle, no update ever executes that macro, and another macro can be
    started at once. *)
Theorem startMacro_empty_name {World M : Type} `{!Macro World M}
    (ms : MacroSystem.t M) (macro : M) :
  MacroSystem.enabled_ ms = true →
  MacroSystem.active_macro_ ms = "" →
  MacroSystem.macros_ ms !! "" = Some macro →
  let started := MacroSystem.startMacro "" ms in
  started.1 = true
  ∧ MacroSystem.macros_ started.2 !! "" = Some (reset macro)
  ∧ MacroSystem.isMacroActive started.2 = false
  ∧ (∀ w : World, MacroSystem.update started.2 w = (started.2, w))
  ∧ (∀ other macro', other ≠ "" →
       MacroSystem.macros_ ms !! other = Some macro' →
       (MacroSystem.startMacro other started.2).1 = true).
Proof.
  intros Hen Hidle Hm. cbv zeta.
  rewrite (startMacro_started "" ms macro) by done. simpl.
  split; [done|]. split; [apply lookup_insert_eq|]. split; [done|].
  split; [intros w; by rewrite update_idle by auto|].
  intros other macro' Hne Hother.
  erewrite startMacro_started; [done|done|done|].
  simpl. by rewrite lookup_insert_ne.
Qed.

Lemma startMacro_empty_name_witness :
  (MacroSystem.startMacro "" nameless_macros).1 = true
  ∧ MacroSystem.isMacroActive (MacroSystem.startMacro "" nameless_macros).2 = false.
Proof.
  destruct (startMacro_empty_name (World := unit) nameless_macros
              (MovementMacro.new (λ w : unit, w))) as (Htrue & _ & Hidle & _);
    try done.
Defined.

(** ** The arbitrator: disabling, and a macro started from a binding *)

(** X19: [disable] on the arbitrator disables it and the macro system,
    whose active macro is cleared, and nothing else: the input mapper keeps
    its enabled flag.  A disabled arbitrator invokes no sub-update and
    changes nothing, even with a macro active. *)
Theorem EnhancedDriverControl_disable_cascades {World M : Type} `{!Macro World M}
    (clock : string → Z) (e : EnhancedDriverControl.t)
    (r : EnhancedDriverControl.Refs World M) :
  let disabled := EnhancedDriverControl.disable e r in
  EnhancedDriverControl.enabled_ disabled.1 = false
  ∧ EnhancedDriverControl.macro_system_ disabled.2
    = MacroSystem.disable (EnhancedDriverControl.macro_system_ r)
  ∧ MacroSystem.isMacroActive (EnhancedDriverControl.macro_system_ disabled.2) = false
  ∧ EnhancedDriverControl.input_mapper_ disabled.2
    = EnhancedDriverControl.input_mapper_ r
  ∧ EnhancedDriverControl.controller disabled.2 = EnhancedDriverControl.controller r
  ∧ EnhancedDriverControl.world disabled.2 = EnhancedDriverControl.world r
  ∧ (∀ r', EnhancedDriverControl.update clock disabled.1 r' = (r', []))
  ∧ (EnhancedDriverControl.enabled_ e = false →
     EnhancedDriverControl.update clock e r = (r, [])).
Proof.
  simpl. repeat split; try done.
  intros Hoff. unfold EnhancedDriverControl.update. by rewrite Hoff.
Qed.

Lemma EnhancedDriverControl_disable_witness :
  EnhancedDriverControl.update (λ _, 0%Z)
    (EnhancedDriverControl.mk "enhanced_driver" DriverControl.DriverConfig_default false)
    running_refs
  = (running_refs, []).
Proof.
  destruct (EnhancedDriverControl_disable_cascades (λ _, 0%Z)
              (EnhancedDriverControl.mk "enhanced_driver"
                 DriverControl.DriverConfig_default false) running_refs)
    as (_ & _ & _ & _ & _ & _ & _ & Hoff).
  by apply Hoff.
Defined.



(** ** The example autonomous routine *)

Section autonomous_routine.
Import MacroSystem.
Context {World : Type}.
Implicit Types (ms : MacroSystem.t (MovementMacro.t World)).

Lemma update_while_active_idle fuel ms (w : World) :
  active_macro_ ms = "" →
  control_system.update_while_active fuel ms w = Some (ms, w).
Proof.
  intros Hidle. destruct fuel; simpl; unfold isMacroActive; by rewrite Hidle.
Qed.

Lemma update_while_active_started name ms macro fuel (w : World) :
  enabled_ ms = true → active_macro_ ms = "" → name ≠ "" →
  macros_ ms !! name = Some macro →
  control_system.update_while_active (S fuel) (startMacro name ms).2 w
  = Some (mk (name_ ms)
            (<[name := MovementMacro.mk (MovementMacro.movement_func_ macro) true]>
               (macros_ ms)) "" true,
          MovementMacro.movement_func_ macro w).
Proof.
  intros Hen Hidle Hname Hm.
  rewrite (startMacro_started name ms macro) by done.
  cbn [snd control_system.update_while_active].
  unfold isMacroActive at 1. cbn [active_macro_].
  rewrite bool_decide_eq_false_2 by done. cbn [negb].
  rewrite (update_active _ w (MovementMacro.reset macro));
    [|done|done|apply lookup_insert_eq].
  cbn [execute MovementMacro.MovementMacro_Macro MovementMacro.execute
       MovementMacro.reset MovementMacro.complete_ MovementMacro.movement_func_
       MovementMacro.isComplete negb fst snd name_ macros_ active_macro_].
  rewrite insert_insert_eq. by rewrite update_while_active_idle.
Qed.

End autonomous_routine.

(** X21: on an enabled idle macro system that has movement macros under
    the names turn_180 and square_pattern, [runAutonomousRoutine] returns
    after one update for each: the function of turn_180 has run once, then
    that of square_pattern once, and the system is idle again.  On a
    disabled idle system it returns at once: nothing starts, nothing
    runs. *)
Theorem runAutonomousRoutine_runs_both {World : Type}
    (ms : MacroSystem.t (MovementMacro.t World))
    (turn square : MovementMacro.t World) (fuel : nat) (w : World) :
  MacroSystem.active_macro_ ms = "" →
  (MacroSystem.enabled_ ms = true →
   MacroSystem.macros_ ms !! "turn_180" = Some turn →
   MacroSystem.macros_ ms !! "square_pattern" = Some square →
   ∃ ms',
     control_system.runAutonomousRoutine (S fuel) ms w
     = Some (ms', MovementMacro.movement_func_ square
                    (MovementMacro.movement_func_ turn w))
     ∧ MacroSystem.active_macro_ ms' = ""
     ∧ MacroSystem.macros_ ms' !! "turn_180"
       = Some (MovementMacro.mk (MovementMacro.movement_func_ turn) true)
     ∧ MacroSystem.macros_ ms' !! "square_pattern"
       = Some (MovementMacro.mk (MovementMacro.movement_func_ square) true))
  ∧ (MacroSystem.enabled_ ms = false →
     control_system.runAutonomousRoutine fuel ms w = Some (ms, w)).
Proof.
  intros Hidle. split.
  - intros Hen Hturn Hsquare. unfold control_system.runAutonomousRoutine.
    rewrite (update_while_active_started "turn_180" ms turn) by done.
    rewrite (update_while_active_started "square_pattern" _ square);
      [|done|done|done|by simpl; rewrite lookup_insert_ne].
    eexists. split; [reflexivity|]. simpl. split; [done|]. split.
    + rewrite lookup_insert_ne by done. apply lookup_insert_eq.
    + apply lookup_insert_eq.
  - intros Hoff. unfold control_system.runAutonomousRoutine.
    rewrite startMacro_disabled by done. simpl.
    rewrite update_while_active_idle by done.
    rewrite startMacro_disabled by done. simpl.
    by rewrite update_while_active_idle.
Qed.

Lemma runAutonomousRoutine_witness :
  control_system.runAutonomousRoutine 3 fresh_macros tt = Some (fresh_macros, tt).
Proof.
  destruct (runAutonomousRoutine_runs_both fresh_macros
              (MovementMacro.new (λ w : unit, w)) (MovementMacro.new (λ w : unit, w))
              3 tt eq_refl) as [_ Hoff].
  by apply Hoff.
Defined.

(** ** The registry: registration, the type cache, disabling *)

Section registry_more.
Import SubsystemRegistry.
Implicit Types (r : SubsystemRegistry.t) (heap : gmap positive Object).

Lemma Object_disable_twice (x : option Object) :
  Object_disable <$> (Object_disable <$> x) = Object_disable <$> x.
Proof. by destruct x as [[]|]. Qed.

(** One [disable()] clears the flags of the objects it reaches and leaves
    the others as they are. *)
Lemma disable_lookup macro_system_ a heap q :
  disable macro_system_ a heap !! q
  = if decide (q ∈ disable_reach macro_system_ heap a)
    then Object_disable <$> heap !! q else heap !! q.
Proof.
  unfold disable, disable_reach. destruct (heap !! a) as [o|] eqn:Ho.
  - assert (Hself : <[a:=Object_disable o]> heap !! q
                    = if decide (q = a) then Object_disable <$> heap !! q
                      else heap !! q).
    { case_decide as Hq; [subst q; by rewrite lookup_insert_eq, Ho|].
      by rewrite lookup_insert_ne. }
    destruct (dynamic_type o);
      try (rewrite Hself; destruct (decide (q = a)) as [->|Hne];
           [by rewrite decide_True by apply list_elem_of_here
           |rewrite decide_False; [done|];
            rewrite elem_of_cons, elem_of_nil; tauto]).
    destruct (decide (q ∈ [a; macro_system_ a])) as [Hin|Hout].
    + destruct (decide (q = macro_system_ a)) as [->|Hm].
      * rewrite lookup_alter_eq, Hself.
        case_decide; [by rewrite Object_disable_twice|done].
      * rewrite lookup_alter_ne, Hself by done.
        rewrite decide_True; [done|].
        rewrite !elem_of_cons, elem_of_nil in Hin. tauto.
    + rewrite !elem_of_cons, elem_of_nil in Hout.
      rewrite lookup_alter_ne by (intros Heq; symmetry in Heq; tauto).
      rewrite Hself. rewrite decide_False; [done|tauto].
  - rewrite decide_False; [done|]. apply not_elem_of_nil.
Qed.

(** What a [disable()] reaches depends on the classes of the objects
    only, which no [disable()] changes. *)
Lemma disable_reach_after macro_system_ a heap b :
  disable_reach macro_system_ (disable macro_system_ a heap) b
  = disable_reach macro_system_ heap b.
Proof.
  unfold disable_reach. rewrite disable_lookup.
  case_decide; [|done]. by destruct (heap !! b) as [[]|].
Qed.

Lemma disable_entries_lookup macro_system_ (l : list (string * positive)) heap q :
  foldl (λ heap entry, disable macro_system_ entry.2 heap) heap l !! q
  = if decide (Exists (λ entry, q ∈ disable_reach macro_system_ heap entry.2) l)
    then Object_disable <$> heap !! q else heap !! q.
Proof.
  revert heap. induction l as [|[name a] l IH]; intros heap.
  - cbn [foldl]. case_decide as Hnil; [by apply Exists_nil in Hnil|done].
  - cbn [foldl]. rewrite IH, disable_lookup. cbn [snd].
    assert (Hsame : Exists (λ entry, q ∈ disable_reach macro_system_
                                       (disable macro_system_ a heap) entry.2) l
                    ↔ Exists (λ entry, q ∈ disable_reach macro_system_ heap entry.2) l).
    { apply Exists_proper; [|done]. intros entry.
      by rewrite disable_reach_after. }
    destruct (decide (q ∈ disable_reach macro_system_ heap a)) as [Hin|Hout];
      destruct (decide (Exists (λ entry, q ∈ disable_reach macro_system_ heap entry.2) l))
        as [Hl|Hl].
    + rewrite !decide_True by (rewrite ?Exists_cons, ?Hsame; auto).
      apply Object_disable_twice.
    + rewrite decide_False by (by rewrite Hsame).
      by rewrite decide_True by (rewrite Exists_cons; auto).
    + by rewrite !decide_True by (rewrite ?Exists_cons, ?Hsame; auto).
    + rewrite !decide_False; [done| |by rewrite Hsame].
      rewrite Exists_cons. simpl. tauto.
Qed.

(** What the list of the entries reaches is what the names of the
    registry reach. *)
Lemma reached_by_disableAll_entries macro_system_ r heap q :
  is_Some (heap !! q) →
  Exists (λ entry, q ∈ disable_reach macro_system_ heap entry.2)
    (map_to_list (subsystems_ r))
  ↔ reached_by_disableAll macro_system_ r heap q.
Proof.
  intros Hq. rewrite Exists_exists. unfold reached_by_disableAll, disable_reach.
  split.
  - intros ([name a] & Hin & Hreach). apply elem_of_map_to_list in Hin.
    simpl in Hreach. destruct (heap !! a) as [o|] eqn:Ho;
      [|by apply elem_of_nil in Hreach].
    apply elem_of_cons in Hreach as [->|Hreach]; [left; eauto|].
    destruct (dynamic_type o) eqn:Hty; try by apply elem_of_nil in Hreach.
    apply list_elem_of_singleton in Hreach. right. eauto 10.
  - intros [(name & Hname)|(name & a & o & Config & Hname & Ho & Hty & Hm)].
    + exists (name, q). split; [by apply elem_of_map_to_list|]. simpl.
      destruct Hq as [o ->]. apply list_elem_of_here.
    + exists (name, a). split; [by apply elem_of_map_to_list|]. simpl.
      rewrite Ho, Hty, Hm. rewrite !elem_of_cons. tauto.
Qed.

End registry_more.

(** X22: [registerSubsystem] initializes the object it is given, which is
    enabled afterwards, and touches no other object; the entry of every
    other name is kept; a lookup by the type of the registration finds the
    object, and so does a lookup by its name at a type the object converts
    to.  A lookup by a name that is not bound answers nothing, at every
    type. *)
Theorem registerSubsystem_effects (T : TypeId) (p : positive)
    (o : SubsystemRegistry.Object) (r : SubsystemRegistry.t)
    (heap : gmap positive SubsystemRegistry.Object) :
  heap !! p = Some o →
  ∃ r' heap',
    SubsystemRegistry.registerSubsystem T p r heap = Some (r', heap')
    ∧ heap' !! p = Some (SubsystemRegistry.mkObject
                           (SubsystemRegistry.dynamic_type o)
                           (SubsystemRegistry.getName o) true)
    ∧ (∀ q, q ≠ p → heap' !! q = heap !! q)
    ∧ (∀ name, name ≠ SubsystemRegistry.getName o →
         SubsystemRegistry.subsystems_ r' !! name
         = SubsystemRegistry.subsystems_ r !! name)
    ∧ SubsystemRegistry.getSubsystemByType T r' = SubsystemRegistry.Ok (Some p)
    ∧ (∀ T', derives (SubsystemRegistry.dynamic_type o) T' = true →
         SubsystemRegistry.getSubsystem T' (SubsystemRegistry.getName o) r' heap'
         = Some p)
    ∧ (∀ T' name, SubsystemRegistry.subsystems_ r' !! name = None →
         SubsystemRegistry.getSubsystem T' name r' heap' = None).
Proof.
  intros Ho. unfold SubsystemRegistry.registerSubsystem. rewrite Ho. simpl.
  eexists _, _. split; [reflexivity|].
  split; [apply lookup_insert_eq|].
  split; [intros q Hq; by rewrite lookup_insert_ne|].
  split; [intros name Hname; simpl; by rewrite lookup_insert_ne|].
  split.
  { unfold SubsystemRegistry.getSubsystemByType, SubsystemRegistry.any_cast. simpl.
    rewrite lookup_insert_eq. simpl. by rewrite decide_True. }
  split.
  - intros T' Hd.
    unfold SubsystemRegistry.getSubsystem, SubsystemRegistry.dynamic_pointer_cast.
    simpl. rewrite !lookup_insert_eq. simpl. by rewrite Hd.
  - intros T' name Hnone. unfold SubsystemRegistry.getSubsystem. by rewrite Hnone.
Qed.

Lemma registerSubsystem_effects_witness :
  ∃ r' heap',
    SubsystemRegistry.registerSubsystem (T_TankChassis robot_config) 3
      SubsystemRegistry.empty three_objects = Some (r', heap')
    ∧ SubsystemRegistry.isEnabled <$> heap' !! 3%positive = Some true.
Proof.
  destruct (registerSubsystem_effects (T_TankChassis robot_config) 3
              (SubsystemRegistry.mkObject (T_TankChassis robot_config)
                 "tank_chassis" false)
              SubsystemRegistry.empty three_objects eq_refl)
    as (r' & heap' & Hreg & Hobj & _).
  exists r', heap'. split; [exact Hreg|]. by rewrite Hobj.
Defined.

(** X23: in the registries that registrations build from the empty one,
    the type cache holds under every type a pointer of that very type, so
    that a lookup by type never throws: it answers the pointer cached
    under the type, or nothing. *)
Theorem type_cache_never_throws (r : SubsystemRegistry.t) :
  type_cache_ok SubsystemRegistry.empty
  ∧ (type_cache_ok r →
     (∀ T p heap r' heap',
        SubsystemRegistry.registerSubsystem T p r heap = Some (r', heap') →
        type_cache_ok r')
     ∧ (∀ T, SubsystemRegistry.getSubsystemByType T r ≠ SubsystemRegistry.bad_any_cast
             ∧ SubsystemRegistry.getSubsystemByType T r
               = SubsystemRegistry.Ok
                   (SubsystemRegistry.any_ptr
                      <$> SubsystemRegistry.type_cache_ r !! T))).
Proof.
  split; [intros T a; simpl; by rewrite lookup_empty|].
  intros Hok. split.
  - intros T p heap r' heap' Hreg.
    apply registerSubsystem_Some in Hreg as (o & _ & -> & _).
    intros T' a. simpl. destruct (decide (T = T')) as [->|Hne].
    + rewrite lookup_insert_eq. by intros [= <-].
    + rewrite lookup_insert_ne by done. apply Hok.
  - intros T. unfold SubsystemRegistry.getSubsystemByType, SubsystemRegistry.any_cast.
    destruct (SubsystemRegistry.type_cache_ r !! T) as [a|] eqn:Ha; [|done].
    rewrite decide_True by (by apply Hok). done.
Qed.

Lemma type_cache_never_throws_witness :
  SubsystemRegistry.getSubsystemByType T_Clamp SubsystemRegistry.empty
  ≠ SubsystemRegistry.bad_any_cast.
Proof.
  destruct (type_cache_never_throws SubsystemRegistry.empty) as [Hempty Hsteps].
  destruct (Hsteps Hempty) as [_ Hlookup]. apply Hlookup.
Defined.

(** X24: the type cache is keyed by the type named at the registration,
    not by what the object converts to: a tank chassis registered as a
    tank chassis is found by its name at the base class of the chassis,
    and is not found by type at that base class. *)
Theorem base_class_lookup_by_type_misses (Config : ChassisConfig) (p : positive)
    (o : SubsystemRegistry.Object) (r r' : SubsystemRegistry.t)
    (heap heap' : gmap positive SubsystemRegistry.Object) :
  heap !! p = Some o →
  SubsystemRegistry.dynamic_type o = T_TankChassis Config →
  SubsystemRegistry.type_cache_ r !! T_Chassis Config = None →
  SubsystemRegistry.registerSubsystem (T_TankChassis Config) p r heap
  = Some (r', heap') →
  SubsystemRegistry.getSubsystem (T_Chassis Config) (SubsystemRegistry.getName o)
    r' heap' = Some p
  ∧ SubsystemRegistry.getSubsystemByType (T_Chassis Config) r'
    = SubsystemRegistry.Ok None
  ∧ SubsystemRegistry.getSubsystemByType (T_TankChassis Config) r'
    = SubsystemRegistry.Ok (Some p).
Proof.
  intros Ho Hty Hnone Hreg.
  apply registerSubsystem_Some in Hreg as (o' & Ho' & -> & ->).
  rewrite Ho in Ho'. injection Ho' as <-.
  split; [|split].
  - unfold SubsystemRegistry.getSubsystem, SubsystemRegistry.dynamic_pointer_cast.
    simpl. rewrite !lookup_insert_eq. simpl. rewrite Hty. unfold derives.
    rewrite bool_decide_eq_false_2 by done. simpl. by rewrite bool_decide_eq_true_2.
  - unfold SubsystemRegistry.getSubsystemByType. simpl.
    by rewrite lookup_insert_ne, Hnone.
  - unfold SubsystemRegistry.getSubsystemByType, SubsystemRegistry.any_cast. simpl.
    rewrite lookup_insert_eq. simpl. by rewrite decide_True.
Qed.

Lemma base_class_lookup_witness :
  ∃ r' heap',
    SubsystemRegistry.registerSubsystem (T_TankChassis robot_config) 3
      SubsystemRegistry.empty three_objects = Some (r', heap')
    ∧ SubsystemRegistry.getSubsystem (T_Chassis robot_config) "tank_chassis" r' heap'
      = Some 3%positive
    ∧ SubsystemRegistry.getSubsystemByType (T_Chassis robot_config) r'
      = SubsystemRegistry.Ok None.
Proof.
  destruct (SubsystemRegistry.registerSubsystem (T_TankChassis robot_config) 3
              SubsystemRegistry.empty three_objects) as [[r' heap']|] eqn:Hreg;
    [|discriminate].
  exists r', heap'. split; [done|].
  destruct (base_class_lookup_by_type_misses robot_config 3
              (SubsystemRegistry.mkObject (T_TankChassis robot_config)
                 "tank_chassis" false)
              SubsystemRegistry.empty r' three_objects heap'
              eq_refl eq_refl eq_refl Hreg) as (Hname & Htype & _).
  split; [exact Hname | exact Htype].
Defined.

(** X25: [disableAll] clears the enabled flag of the objects that the
    names of the registry lead to and, through the [disable()] of the
    arbitrators among them, of the macro systems these refer to, whether a
    name leads to those or not; the flag of every other object is left as
    it is: that of an object displaced by a later registration under its
    name stays set. *)
Theorem disableAll_reaches_names_and_macro_systems
    (macro_system_ : positive → positive) (r : SubsystemRegistry.t)
    (heap : gmap positive SubsystemRegistry.Object) (p : positive) :
  (reached_by_disableAll macro_system_ r heap p →
     SubsystemRegistry.disableAll macro_system_ r heap !! p
     = SubsystemRegistry.Object_disable <$> heap !! p)
  ∧ (¬ reached_by_disableAll macro_system_ r heap p →
     SubsystemRegistry.disableAll macro_system_ r heap !! p = heap !! p).
Proof.
  unfold SubsystemRegistry.disableAll. rewrite disable_entries_lookup.
  destruct (heap !! p) as [o|] eqn:Hp.
  - pose proof (reached_by_disableAll_entries macro_system_ r heap p) as Hiff.
    rewrite Hp in Hiff. specialize (Hiff ltac:(eauto)).
    split; intros Hreach.
    + by rewrite decide_True by (by apply Hiff).
    + by rewrite decide_False by (by rewrite Hiff).
  - split; intros _; by case_decide.
Qed.

Lemma disableAll_witness :
  ∃ r heap,
    clamps_and_arbitrator_registered = Some (r, heap)
    ∧ SubsystemRegistry.isEnabled <$> heap !! 1%positive = Some true
    ∧ SubsystemRegistry.disableAll macro_system_at_5 r heap !! 1%positive
      = heap !! 1%positive
    ∧ SubsystemRegistry.isEnabled
        <$> SubsystemRegistry.disableAll macro_system_at_5 r heap !! 2%positive
      = Some false
    ∧ SubsystemRegistry.subsystems_ r !! "main_macro" = None
    ∧ SubsystemRegistry.isEnabled <$> heap !! 5%positive = Some true
    ∧ SubsystemRegistry.isEnabled
        <$> SubsystemRegistry.disableAll macro_system_at_5 r heap !! 5%positive
      = Some false.
Proof.
  eexists _, _. split; [reflexivity|]. split; [reflexivity|].
  split; [|split; [|split; [reflexivity|split; [reflexivity|]]]].
  - apply disableAll_reaches_names_and_macro_systems.
    intros [(name & Hname)|(name & a & o & Config & Hname & Ho & Hty & Hm)];
      [|discriminate Hm].
    simpl in Hname.
    destruct (decide (name = "main_enhanced_driver")) as [->|Hne1];
      [by rewrite lookup_insert_eq in Hname|].
    rewrite lookup_insert_ne in Hname by done.
    destruct (decide (name = "main_clamp")) as [->|Hne2].
    + by rewrite lookup_insert_eq in Hname.
    + by rewrite !lookup_insert_ne in Hname.
  - erewrite (proj1 (disableAll_reaches_names_and_macro_systems _ _ _ 2%positive)).
    + reflexivity.
    + left. exists "main_clamp". simpl.
      rewrite lookup_insert_ne by done. apply lookup_insert_eq.
  - erewrite (proj1 (disableAll_reaches_names_and_macro_systems _ _ _ 5%positive)).
    + reflexivity.
    + right. exists "main_enhanced_driver", 4%positive. eexists _, robot_config.
      split; [simpl; apply lookup_insert_eq|]. split; [reflexivity|]. done.
Defined.

(** ** The event bus: topics and order *)

(** Handlers hear their own topic only: emitting on a topic nobody
    subscribed to does nothing, and a subscription to one topic changes
    nothing of what emitting on another topic does. *)
Lemma emit_topics_are_separate {World : Type}
    (T T' : EventSystem.type_index) (event_type other : string)
    (handler : EventSystem.cpp_type T → World → World)
    (data : EventSystem.cpp_type T') (es : EventSystem.t World) (w : World) :
  EventSystem.emit T' other data EventSystem.empty w = w
  ∧ (EventSystem.handlers_ es !! other = None →
     EventSystem.emit T' other data es w = w)
  ∧ (other ≠ event_type →
     EventSystem.emit T' other data (EventSystem.subscribe T event_type handler es) w
     = EventSystem.emit T' other data es w).
Proof.
  unfold EventSystem.emit. simpl. rewrite lookup_empty.
  split; [done|]. split; [by intros ->|].
  intros Hne. by rewrite lookup_insert_ne.
Qed.

Lemma emit_topics_witness :
  EventSystem.emit EventSystem.T_bool "other_topic" true clamp_topic [] = [].
Proof.
  destruct (emit_topics_are_separate EventSystem.T_bool EventSystem.T_bool
              "clamp_state_changed" "other_topic" log_bool true
              EventSystem.empty []) as (Hempty & _ & Hother).
  unfold clamp_topic. rewrite Hother by done. exact Hempty.
Defined.

(** X26: handlers subscribed to a topic for one payload type are called in
    the order of their subscriptions, after those that were subscribed
    before them, each with the payload emitted. *)
Theorem emit_in_subscription_order {World : Type} (T : EventSystem.type_index)
    (event_type : string)
    (handlers : list (EventSystem.cpp_type T → World → World))
    (data : EventSystem.cpp_type T) (es : EventSystem.t World) (w : World) :
  EventSystem.emit T event_type data
    (foldl (λ es handler, EventSystem.subscribe T event_type handler es) es handlers)
    w
  = foldl (λ w handler, handler data w) (EventSystem.emit T event_type data es w)
      handlers.
Proof.
  revert es. induction handlers as [|handler handlers IH]; intros es; [done|].
  cbn [foldl]. rewrite IH. by rewrite emit_subscribe, any_cast_same.
Qed.

(** ** The clamp *)

Section clamp.
Import Clamp.
Context {World : Type}.
Implicit Types (events : EventSystem.t World) (c : Clamp.t) (w : World).

Lemma setState_same events c w : setState events (is_clamped_ c) c w = (c, w).
Proof. unfold setState. by rewrite bool_decide_eq_false_2 by tauto. Qed.

Lemma setState_changed events clamped c w :
  clamped ≠ is_clamped_ c →
  setState events clamped c w
  = (mk (name_ c) (enabled_ c) (config_ c)
        (if negb (dev_mode (config_ c))
         then adi.set_value clamped <$> solenoid_ c else solenoid_ c) clamped,
     EventSystem.emit EventSystem.T_bool "clamp_state_changed" clamped events w).
Proof.
  intros Hne. unfold setState. by rewrite bool_decide_eq_true_2 by congruence.
Qed.

End clamp.

(** X27: the clamp notifies changes only: setting the state it already has
    changes nothing and emits nothing; setting the other state emits one
    clamp_state_changed event carrying the new state, and writes the
    solenoid, when there is one, unless the clamp is in dev mode, in which
    case the solenoid is never written.  The enabled flag plays no part.
    Toggling twice restores the state and has emitted the two states in
    turn. *)
Theorem clamp_notifies_changes {World : Type} (events : EventSystem.t World)
    (clamped : bool) (c : Clamp.t) (w : World) :
  Clamp.setClamp events (Clamp.is_clamped_ c) c w = (c, w)
  ∧ (clamped ≠ Clamp.is_clamped_ c →
     let result := Clamp.setClamp events clamped c w in
     Clamp.is_clamped_ result.1 = clamped
     ∧ result.2
       = EventSystem.emit EventSystem.T_bool "clamp_state_changed" clamped events w
     ∧ Clamp.enabled_ result.1 = Clamp.enabled_ c
     ∧ (Clamp.dev_mode (Clamp.config_ c) = true →
        Clamp.solenoid_ result.1 = Clamp.solenoid_ c)
     ∧ (Clamp.dev_mode (Clamp.config_ c) = false →
        Clamp.solenoid_ result.1 = adi.set_value clamped <$> Clamp.solenoid_ c))
  ∧ (let once := Clamp.toggle events c w in
     let twice := Clamp.toggle events once.1 once.2 in
     Clamp.is_clamped_ once.1 = negb (Clamp.is_clamped_ c)
     ∧ Clamp.is_clamped_ twice.1 = Clamp.is_clamped_ c
     ∧ twice.2
       = EventSystem.emit EventSystem.T_bool "clamp_state_changed"
           (Clamp.is_clamped_ c) events
           (EventSystem.emit EventSystem.T_bool "clamp_state_changed"
              (negb (Clamp.is_clamped_ c)) events w)).
Proof.
  split; [apply setState_same|]. split.
  - intros Hne. cbv zeta. unfold Clamp.setClamp.
    rewrite setState_changed by done. simpl.
    repeat split; try done; by intros ->.
  - cbv zeta. unfold Clamp.toggle.
    rewrite (setState_changed events (negb (Clamp.is_clamped_ c)) c w)
      by (by destruct (Clamp.is_clamped_ c)).
    simpl. rewrite setState_changed by (simpl; by destruct (Clamp.is_clamped_ c)).
    simpl. by rewrite negb_involutive.
Qed.

Lemma clamp_notifies_changes_witness :
  (Clamp.setClamp clamp_topic true dev_clamp []).2 = [true]
  ∧ Clamp.solenoid_ (Clamp.setClamp clamp_topic true dev_clamp []).1 = None.
Proof.
  destruct (clamp_notifies_changes clamp_topic true dev_clamp [])
    as (_ & Hchange & _).
  destruct Hchange as (_ & Hevent & _ & Hdev & _); [done|].
  split; [rewrite Hevent; reflexivity | by rewrite Hdev].
Defined.

(** X28: [initialize] enables the clamp.  In dev mode that is all: no
    solenoid is opened and nothing is emitted.  Otherwise a solenoid is
    opened on the configured port and the clamp is brought to its default
    state, which the solenoid then holds; an event is emitted only if that
    changed the state. *)
Theorem clamp_initialize {World : Type} (events : EventSystem.t World)
    (c : Clamp.t) (w : World) :
  let result := Clamp.initialize events c w in
  Clamp.enabled_ result.1 = true
  ∧ (Clamp.dev_mode (Clamp.config_ c) = true →
     result = (Clamp.mk (Clamp.name_ c) true (Clamp.config_ c) (Clamp.solenoid_ c)
                 (Clamp.is_clamped_ c), w))
  ∧ (Clamp.dev_mode (Clamp.config_ c) = false →
     Clamp.is_clamped_ result.1 = Clamp.default_state (Clamp.config_ c)
     ∧ adi.adi_port <$> Clamp.solenoid_ result.1 = Some (Clamp.port (Clamp.config_ c))
     ∧ (Clamp.is_clamped_ c = Clamp.default_state (Clamp.config_ c) → result.2 = w)
     ∧ (Clamp.is_clamped_ c ≠ Clamp.default_state (Clamp.config_ c) →
        result.2
        = EventSystem.emit EventSystem.T_bool "clamp_state_changed"
            (Clamp.default_state (Clamp.config_ c)) events w
        ∧ adi.get_value <$> Clamp.solenoid_ result.1
          = Some (Clamp.default_state (Clamp.config_ c)))).
Proof.
  cbv zeta. unfold Clamp.initialize.
  destruct (Clamp.dev_mode (Clamp.config_ c)) eqn:Hdev; simpl.
  - by repeat split.
  - split; [by destruct (Clamp.setState _ _ _ _)|]. split; [done|]. intros _.
    destruct (decide (Clamp.is_clamped_ c = Clamp.default_state (Clamp.config_ c)))
      as [Heq|Hne].
    + rewrite <- Heq.
      pose proof (setState_same events
        (Clamp.mk (Clamp.name_ c) (Clamp.enabled_ c) (Clamp.config_ c)
           (Some (adi.DigitalOut_new (Clamp.port (Clamp.config_ c))))
           (Clamp.is_clamped_ c)) w) as Hs.
      simpl in Hs. rewrite Hs. simpl. by repeat split.
    + rewrite setState_changed by (simpl; congruence). simpl. rewrite Hdev. simpl.
      repeat split; try done; intros Heq; congruence.
Qed.

Lemma clamp_initialize_witness :
  Clamp.initialize clamp_topic dev_clamp []
  = (Clamp.mk "main_clamp" true (Clamp.ClampConfig_new (Ascii.ascii_of_nat 66) true) None false, []).
Proof.
  destruct (clamp_initialize clamp_topic dev_clamp []) as (_ & Hdev & _).
  by apply Hdev.
Defined.

(** ** The robot state and the registry *)

Section robot_state.
Import SubsystemRegistry.
Implicit Types (s : SubsystemRegistry.t * gmap positive Object).

Lemma make_and_register_spec T name s :
  ∃ p s',
    RobotState.make_and_register T name s = Some s'
    ∧ s.2 !! p = None
    ∧ subsystems_ s'.1 = <[name := p]> (subsystems_ s.1)
    ∧ type_cache_ s'.1 = <[T := mkAny T p]> (type_cache_ s.1)
    ∧ s'.2 = <[p := mkObject T name true]> s.2.
Proof.
  unfold RobotState.make_and_register, make_shared, registerSubsystem.
  set (p := fresh (dom s.2)).
  exists p. eexists. rewrite lookup_insert_eq. simpl. split; [done|].
  split; [apply not_elem_of_dom, is_fresh|].
  simpl. repeat split. by rewrite insert_insert_eq.
Qed.

(** What a later registration keeps: the objects there are, the entries of
    other names, and the absence of an entry of another type. *)
Lemma make_and_register_keeps T name s :
  ∃ s', RobotState.make_and_register T name s = Some s'
    ∧ (∀ q o, s.2 !! q = Some o → s'.2 !! q = Some o)
    ∧ (∀ n q, n ≠ name → subsystems_ s.1 !! n = Some q →
              subsystems_ s'.1 !! n = Some q)
    ∧ (∀ T', T' ≠ T → type_cache_ s.1 !! T' = None → type_cache_ s'.1 !! T' = None).
Proof.
  destruct (make_and_register_spec T name s) as (p & s' & Hs' & Hp & Hn & Hc & Hh).
  exists s'. split; [done|]. rewrite Hn, Hc, Hh. repeat split.
  - intros q o Hq. rewrite lookup_insert_ne; [done|congruence].
  - intros n q Hne Hq. by rewrite lookup_insert_ne.
  - intros T' Hne Hq. by rewrite lookup_insert_ne.
Qed.

End robot_state.

(** X29: after [initializeSubsystems], whatever was registered before,
    the clamp getter returns the clamp, and the chassis is found by its
    name, as a [Chassis<MainChassisConfig>], enabled.  But the chassis was
    registered under its own type, [TankChassis<MainChassisConfig>], so
    unless something else was registered under the base type, the chassis
    getter, which looks for that base type, throws its runtime error. *)
Theorem getChassis_misses_the_tank_chassis
    (r : SubsystemRegistry.t) (heap : gmap positive SubsystemRegistry.Object) :
  SubsystemRegistry.type_cache_ r !! T_Chassis RobotState.MainChassisConfig = None →
  ∃ r' heap' chassis clamp,
    RobotState.initializeSubsystems (r, heap) = Some (r', heap')
    ∧ SubsystemRegistry.getSubsystem (T_Chassis RobotState.MainChassisConfig)
        "main_chassis" r' heap' = Some chassis
    ∧ heap' !! chassis
      = Some (SubsystemRegistry.mkObject
                (T_TankChassis RobotState.MainChassisConfig) "main_chassis" true)
    ∧ RobotState.getClamp r' heap' = RobotState.Returns clamp
    ∧ heap' !! clamp = Some (SubsystemRegistry.mkObject T_Clamp "main_clamp" true)
    ∧ RobotState.getChassis r'
      = RobotState.runtime_error "Chassis subsystem not initialized".
Proof.
  intros Hcache. unfold RobotState.initializeSubsystems.
  destruct (make_and_register_spec (T_TankChassis RobotState.MainChassisConfig)
              "main_chassis" (r, heap)) as (p1 & s1 & Hs1 & _ & Hn1 & Hc1 & Hh1).
  destruct (make_and_register_spec T_Clamp "main_clamp" s1)
    as (p2 & s2 & Hs2 & Hp2 & Hn2 & Hc2 & Hh2).
  destruct (make_and_register_keeps (T_DriverControl RobotState.MainChassisConfig)
              "main_driver" s2) as (s3 & Hs3 & Hh3 & Hn3 & Hc3).
  destruct (make_and_register_keeps (T_InputMapper RobotState.MainChassisConfig)
              "main_input_mapper" s3) as (s4 & Hs4 & Hh4 & Hn4 & Hc4).
  destruct (make_and_register_keeps (T_MacroSystem RobotState.MainChassisConfig)
              "main_macro" s4) as (s5 & Hs5 & Hh5 & Hn5 & Hc5).
  destruct (make_and_register_keeps
              (T_EnhancedDriverControl RobotState.MainChassisConfig)
              "main_enhanced_driver" s5) as (s6 & Hs6 & Hh6 & Hn6 & Hc6).
  rewrite Hs1; cbn [mbind option_bind]. rewrite Hs2; cbn [mbind option_bind].
  rewrite Hs3; cbn [mbind option_bind]. rewrite Hs4; cbn [mbind option_bind].
  rewrite Hs5; cbn [mbind option_bind]. rewrite Hs6.
  clear Hs1 Hs2 Hs3 Hs4 Hs5 Hs6.
  simpl in *.
  assert (Hchassis : s2.2 !! p1
            = Some (SubsystemRegistry.mkObject
                      (T_TankChassis RobotState.MainChassisConfig) "main_chassis" true)).
  { rewrite Hh2, lookup_insert_ne, Hh1; [by rewrite lookup_insert_eq|].
    intros ->. rewrite Hh1, lookup_insert_eq in Hp2. done. }
  assert (Hclamp : s2.2 !! p2
            = Some (SubsystemRegistry.mkObject T_Clamp "main_clamp" true)).
  { by rewrite Hh2, lookup_insert_eq. }
  assert (Hname1 : SubsystemRegistry.subsystems_ s2.1 !! "main_chassis" = Some p1).
  { rewrite Hn2, lookup_insert_ne, Hn1 by done. by rewrite lookup_insert_eq. }
  assert (Hname2 : SubsystemRegistry.subsystems_ s2.1 !! "main_clamp" = Some p2).
  { by rewrite Hn2, lookup_insert_eq. }
  assert (Hnone : SubsystemRegistry.type_cache_ s2.1
                    !! T_Chassis RobotState.MainChassisConfig = None).
  { rewrite Hc2, lookup_insert_ne, Hc1, lookup_insert_ne by done. done. }
  destruct s6 as [r' heap']. exists r', heap', p1, p2. simpl in *.
  split; [done|].
  assert (Hn : ∀ n q, n ≠ "main_driver" → n ≠ "main_input_mapper" →
             n ≠ "main_macro" → n ≠ "main_enhanced_driver" →
             SubsystemRegistry.subsystems_ s2.1 !! n = Some q →
             SubsystemRegistry.subsystems_ r' !! n = Some q) by auto.
  assert (Hh : ∀ q o, s2.2 !! q = Some o → heap' !! q = Some o) by auto.
  unfold RobotState.getClamp, RobotState.getChassis,
    SubsystemRegistry.getSubsystem, SubsystemRegistry.getSubsystemByType,
    SubsystemRegistry.dynamic_pointer_cast.
  rewrite (Hn "main_chassis" p1), (Hn "main_clamp" p2) by done.
  rewrite (Hh _ _ Hchassis), (Hh _ _ Hclamp).
  rewrite Hc6; [| done | apply Hc5; [done|]; apply Hc4; [done|]; by apply Hc3].
  simpl. repeat split; done.
Qed.

Lemma getChassis_misses_witness :
  ∃ r' heap',
    RobotState.initializeSubsystems (SubsystemRegistry.empty, ∅) = Some (r', heap')
    ∧ RobotState.getChassis r'
      = RobotState.runtime_error "Chassis subsystem not initialized".
Proof.
  destruct (getChassis_misses_the_tank_chassis SubsystemRegistry.empty ∅)
    as (r' & heap' & _ & _ & Hinit & _ & _ & _ & _ & Hthrow); [done|].
  by exists r', heap'.
Defined.

(** ** The example robot *)

Lemma turnTo_disabled (Config : ChassisConfig) fuel ticks angle (c : TankChassis.t) :
  TankChassis.enabled_ c = false →
  TankChassis.turnTo Config fuel ticks angle c = Some c.
Proof. unfold TankChassis.turnTo. by intros ->. Qed.

(** X30: [initializeChassis] builds a chassis of four motors, on ports 1 to
    4 with the right side reversed, and its heading sensor on port 10, but
    it initializes neither the chassis nor the driver control, so both are
    disabled: the autonomous routines return at once and leave the chassis
    as it was, whatever the sensors read, and a driver-control update writes
    no motor, whatever the controller reads. *)
Theorem robot_without_initialize_stands_still (controller : Controller)
    (fuel : nat) (ticks1 ticks2 ticks3 : list Tick) :
  let r := robot.initializeChassis controller in
  motor_port <$> TankChassis.motors_ (robot.chassis r) = [1; 2; 3; 4]%Z
  ∧ motor_reversed <$> TankChassis.motors_ (robot.chassis r)
    = [false; false; true; true]
  ∧ imu_port <$> TankChassis.imu_ (robot.chassis r) = Some 10%Z
  ∧ TankChassis.enabled_ (robot.chassis r) = false
  ∧ DriverControl.enabled_ (robot.driver r) = false
  ∧ robot.runAutonomous fuel ticks1 ticks2 ticks3 (robot.chassis r)
    = Some (robot.chassis r)
  ∧ robot.moveToGoal fuel ticks1 ticks2 (robot.chassis r) = Some (robot.chassis r)
  ∧ robot.updateDriverControl r = r.
Proof.
  cbv zeta.
  assert (TankChassis.enabled_ (robot.chassis (robot.initializeChassis controller))
          = false) as Hoff by reflexivity.
  do 5 (split; [reflexivity|]). split; [|split; [|reflexivity]].
  - unfold robot.runAutonomous.
    rewrite moveTo_disabled by done. cbn [mbind option_bind].
    rewrite turnTo_disabled by done. cbn [mbind option_bind].
    by rewrite moveTo_disabled.
  - unfold robot.moveToGoal.
    rewrite moveTo_disabled by done. cbn [mbind option_bind].
    destruct (TankChassis.getPosition _ _) as [pos c] eqn:Hpos.
    assert (c = robot.chassis (robot.initializeChassis controller)) as ->.
    { by injection Hpos as _ <-. }
    by rewrite turnTo_disabled.
Qed.
